(** * useSpeechRecognition: a model of src/index.ts

    The hook keeps a speech recognition engine (the browser's
    SpeechRecognition object) listening, files the results it reports
    into a list of final transcripts and a live transcript, and looks for
    a pattern in every result.

    The engine is a black box: the model records the calls the hook makes
    on it (start, stop, abort), the fields the hook writes on it and the
    listeners the hook installs on it.  What the engine does between two
    notifications is not modelled; a notification is an input of the
    model.  Caller-supplied callbacks are opaque as well: calling one is
    recorded, nothing more.

    JavaScript strings are modelled by [string] (ASCII), numbers that are
    only stored by [float], indices and counters by [nat]. *)

From Stdlib Require Import Bool Arith NArith Lia List String Ascii.
From Stdlib Require Import HexadecimalString HexadecimalN PrimFloat.
Import ListNotations.
Open Scope string_scope.
Open Scope list_scope.
Open Scope nat_scope.

Set Implicit Arguments.

(* ================================================================== *)
(** ** JavaScript built-ins the hook calls *)

Module JS.

(** String.prototype.toLowerCase, on ASCII. *)
Definition lower (c : ascii) : ascii :=
  let n := nat_of_ascii c in
  if (65 <=? n) && (n <=? 90) then ascii_of_nat (n + 32) else c.

Fixpoint toLowerCase (s : string) : string :=
  match s with
  | EmptyString => EmptyString
  | String c s' => String (lower c) (toLowerCase s')
  end.

(** Canonicalize of the RegExp semantics, without the unicode flag: with
    ignoreCase a character is compared through its upper-case form. *)
Definition upper (c : ascii) : ascii :=
  let n := nat_of_ascii c in
  if (97 <=? n) && (n <=? 122) then ascii_of_nat (n - 32) else c.

Definition Canonicalize (ignoreCase : bool) (c : ascii) : ascii :=
  if ignoreCase then upper c else c.

(** Number.prototype.toString(16) of a non-negative integer. *)
Definition toString16 (n : N) : string :=
  NilZero.string_of_uint (N.to_hex_uint n).

(** A RegExp object.  [RegExpMatcher] is the object's internal matcher:
    given the input and an index it says whether the pattern matches
    starting exactly there, and over how many characters.  The flags g
    and y are the ones the algorithms below read; the flag i is part of
    the matcher.  The mutable property lastIndex is not in the record:
    it is kept per object, under [rx_object], in the state of the
    program. *)
Record RegExp := {
  rx_object : nat;
  RegExpMatcher : string -> nat -> option nat;
  global : bool;
  sticky : bool
}.

Record Match := { index : nat; matched : string }.

(** The Repeat loop of RegExpBuiltinExec.  [tries] counts the indices
    from [lastIndex] up to the length of [str], both included: when it is
    0, lastIndex > length. *)
Fixpoint exec_loop (R : RegExp) (str : string) (lastIndex tries : nat)
  : option (nat * nat) :=
  match tries with
  | 0 => None
  | S k =>
      match RegExpMatcher R str lastIndex with
      | Some n => Some (lastIndex, lastIndex + n)
      | None =>
          if sticky R then None else exec_loop R str (S lastIndex) k
      end
  end.

(** RegExpBuiltinExec(R, str), with the value of R.lastIndex before the
    call as an argument and its value after the call as second result. *)
Definition RegExpBuiltinExec (R : RegExp) (str : string) (lastIndex : nat)
  : option Match * nat :=
  let tracked := global R || sticky R in
  let from := if tracked then lastIndex else 0 in
  match exec_loop R str from (String.length str + 1 - from) with
  | None => (None, if tracked then 0 else lastIndex)
  | Some (i, e) =>
      (Some {| index := i; matched := substring i (e - i) str |},
       if tracked then e else lastIndex)
  end.

(** RegExp.prototype.test. *)
Definition test (R : RegExp) (str : string) (lastIndex : nat) : bool * nat :=
  match RegExpBuiltinExec R str lastIndex with
  | (Some _, li) => (true, li)
  | (None, li) => (false, li)
  end.

Definition is_empty (s : string) : bool :=
  match s with EmptyString => true | _ => false end.

(** The %RegExpStringIterator% of a global regular expression, run to
    its end: the matched substrings in the order they are found.  After
    an empty match the iterator moves lastIndex one character on. *)
Fixpoint RegExpStringIterator (R : RegExp) (str : string)
    (lastIndex fuel : nat) : list string :=
  match fuel with
  | 0 => []
  | S fuel' =>
      match RegExpBuiltinExec R str lastIndex with
      | (None, _) => []
      | (Some m, e) =>
          let next := if is_empty (matched m) then e + 1 else e in
          matched m :: RegExpStringIterator R str next fuel'
      end
  end.

(** [...str.matchAll(R)]: a TypeError ([None]) when R is not global;
    otherwise the iterator runs on a copy of R that starts from R's
    lastIndex, and R.lastIndex itself is left alone. *)
Definition matchAll (str : string) (R : RegExp) (lastIndex : nat)
  : option (list string) :=
  if global R
  then Some (RegExpStringIterator R str lastIndex (String.length str + 2))
  else None.

(** Array.prototype.pop, for its result. *)
Definition pop {A} (l : list A) : option A := List.last (map Some l) None.

(** The matcher of a pattern made of literal characters only, as
    [new RegExp('hello world', 'gi')] compiles one. *)
Fixpoint literal_at (ignoreCase : bool) (pattern str : string) : bool :=
  match pattern, str with
  | EmptyString, _ => true
  | String p pattern', String c str' =>
      Ascii.eqb (Canonicalize ignoreCase p) (Canonicalize ignoreCase c)
      && literal_at ignoreCase pattern' str'
  | String _ _, EmptyString => false
  end.

Definition literal (ignoreCase : bool) (pattern : string)
  : string -> nat -> option nat :=
  fun str i =>
    if literal_at ignoreCase pattern
         (substring i (String.length str - i) str)
    then Some (String.length pattern) else None.

End JS.

(* ================================================================== *)
(** ** Data model *)

(** A caller-supplied callback: an opaque function, known by its identity. *)
Definition Handler := nat.

(** The eleven callback properties of the options, which are also the
    eleven notification slots of the engine. *)
Inductive Slot :=
| Onaudioend | Onaudiostart | Onend | Onerror | Onnomatch | Onresult
| Onsoundend | Onsoundstart | Onspeechend | Onspeechstart | Onstart.

Definition Slot_eqb (a b : Slot) : bool :=
  match a, b with
  | Onaudioend, Onaudioend | Onaudiostart, Onaudiostart | Onend, Onend
  | Onerror, Onerror | Onnomatch, Onnomatch | Onresult, Onresult
  | Onsoundend, Onsoundend | Onsoundstart, Onsoundstart
  | Onspeechend, Onspeechend | Onspeechstart, Onspeechstart
  | Onstart, Onstart => true
  | _, _ => false
  end.

(** interface StartOptions: every property is optional ([None]: absent). *)
Record StartOptions := {
  so_continuous : option bool;
  so_grammar : option string;
  so_interimResults : option bool;
  so_lang : option string;
  so_maxAlternatives : option N;
  so_regex : option JS.RegExp
}.

(** interface SpeechRecognitionOptions extends StartOptions.  For a
    callback [None] is null or absent, which the spread over the defaults
    does not tell apart. *)
Record SpeechRecognitionOptions := {
  so_start : StartOptions;
  so_startOnLoad : option bool;
  so_callbacks : Slot -> option Handler
}.

(** Required<SpeechRecognitionOptions>, the type of the state [_options]. *)
Record Options := {
  continuous : bool;
  grammar : string;
  interimResults : bool;
  lang : string;
  maxAlternatives : N;
  regex : JS.RegExp;
  startOnLoad : bool;
  onaudioend : option Handler;
  onaudiostart : option Handler;
  onend : option Handler;
  onerror : option Handler;
  onnomatch : option Handler;
  onresult : option Handler;
  onsoundend : option Handler;
  onsoundstart : option Handler;
  onspeechend : option Handler;
  onspeechstart : option Handler;
  onstart : option Handler
}.

(** interface Transcript. *)
Record Transcript := {
  id : string;
  confidence : float;
  isFinal : bool;
  transcript : string
}.

(** The event objects of the engine, as far as the hook reads them.  An
    event that is not a result event has an empty list of results. *)
Record SpeechRecognitionAlternative := {
  alt_transcript : string;
  alt_confidence : float
}.

Record SpeechRecognitionResult := {
  res_isFinal : bool;
  res_alternatives : list SpeechRecognitionAlternative
}.

Record SpeechRecognitionEvent := {
  resultIndex : nat;
  results : list SpeechRecognitionResult
}.

(** What can sit in a notification slot of the engine after
    initializeSpeechRecognition.  The three handlers of the hook are
    closures over the [_options] of the render that created them. *)
Inductive Listener :=
| NoListener
| HandleEnd (_options : Options)
| HandleResult (_options : Options)
| HandleStart (_options : Options)
| Callback (slot : Slot) (func : option Handler)
| Direct (slot : Slot) (func : option Handler).

(** The engine object [recognition.current]: the fields the hook writes. *)
Module SpeechRecognition.
Record t := {
  grammars : list (string * N);
  continuous : bool;
  interimResults : bool;
  lang : string;
  maxAlternatives : N;
  listeners : Slot -> Listener
}.

(** A fresh [new SpeechRecognition()]. *)
Definition new : t := {|
  grammars := [];
  continuous := false;
  interimResults := false;
  lang := "";
  maxAlternatives := 1%N;
  listeners := fun _ => NoListener
|}.
End SpeechRecognition.

(** A call of the hook on the engine. *)
Inductive EngineCall := EngineStart | EngineStop | EngineAbort.

Definition EngineCall_eqb (a b : EngineCall) : bool :=
  match a, b with
  | EngineStart, EngineStart | EngineStop, EngineStop
  | EngineAbort, EngineAbort => true
  | _, _ => false
  end.

(** A function handed to setTimeout(_, 0). *)
Inductive Task :=
| RecognitionStart                          (* () => recognition.current.start() *)
| Start (startOptions : option StartOptions). (* () => start(startOptions) *)

(** A call of a caller-supplied callback: the property of [_options] it
    was read from, the function and the event passed to it. *)
Record Invocation := {
  via : Slot;
  func : Handler;
  arg : SpeechRecognitionEvent
}.

(** The state of one mounted hook.

    React state: [_options], [transcripts], [liveTranscript], [match_]
    (the source's [match]); a queued update is modelled as applied when
    the function that queued it returns.  How many times React runs the
    updater of [transcripts] is an input of the notification (see
    [Draws]); the updater of [_options] is pure, and the number of its
    runs does not show.  Refs: [recognition], [isInitialized], [isListening].
    [lastIndex] is the lastIndex property of the RegExp objects, by
    object.  The rest is the environment: [turn] numbers the tasks of the
    event loop, [engine_calls] lists the calls made on the engine with the
    turn of each, [timers] is the queue of setTimeout, [invocations] lists
    the calls of caller-supplied callbacks. *)
Record State := {
  _options : Options;
  transcripts : list Transcript;
  liveTranscript : string;
  match_ : option string;
  recognition : SpeechRecognition.t;
  isInitialized : bool;
  isListening : bool;
  lastIndex : nat -> nat;
  turn : nat;
  engine_calls : list (nat * EngineCall);
  timers : list Task;
  invocations : list Invocation
}.

(** A handler returns, or throws a TypeError; the state updates made
    before the throw stay. *)
Inductive Completion :=
| Normal (st : State)
| TypeError (st : State).

Definition state_of (c : Completion) : State :=
  match c with Normal st | TypeError st => st end.

(* ================================================================== *)
(** ** Writing the state *)

Definition setOptions (f : Options -> Options) (st : State) : State :=
  {| _options := f (_options st); transcripts := transcripts st;
     liveTranscript := liveTranscript st; match_ := match_ st;
     recognition := recognition st; isInitialized := isInitialized st;
     isListening := isListening st; lastIndex := lastIndex st;
     turn := turn st; engine_calls := engine_calls st;
     timers := timers st; invocations := invocations st |}.

Definition setTranscripts (f : list Transcript -> list Transcript)
    (st : State) : State :=
  {| _options := _options st; transcripts := f (transcripts st);
     liveTranscript := liveTranscript st; match_ := match_ st;
     recognition := recognition st; isInitialized := isInitialized st;
     isListening := isListening st; lastIndex := lastIndex st;
     turn := turn st; engine_calls := engine_calls st;
     timers := timers st; invocations := invocations st |}.

Definition setLiveTranscript (s : string) (st : State) : State :=
  {| _options := _options st; transcripts := transcripts st;
     liveTranscript := s; match_ := match_ st;
     recognition := recognition st; isInitialized := isInitialized st;
     isListening := isListening st; lastIndex := lastIndex st;
     turn := turn st; engine_calls := engine_calls st;
     timers := timers st; invocations := invocations st |}.

Definition setMatch (m : option string) (st : State) : State :=
  {| _options := _options st; transcripts := transcripts st;
     liveTranscript := liveTranscript st; match_ := m;
     recognition := recognition st; isInitialized := isInitialized st;
     isListening := isListening st; lastIndex := lastIndex st;
     turn := turn st; engine_calls := engine_calls st;
     timers := timers st; invocations := invocations st |}.

Definition set_recognition (r : SpeechRecognition.t) (st : State) : State :=
  {| _options := _options st; transcripts := transcripts st;
     liveTranscript := liveTranscript st; match_ := match_ st;
     recognition := r; isInitialized := isInitialized st;
     isListening := isListening st; lastIndex := lastIndex st;
     turn := turn st; engine_calls := engine_calls st;
     timers := timers st; invocations := invocations st |}.

Definition set_isInitialized (b : bool) (st : State) : State :=
  {| _options := _options st; transcripts := transcripts st;
     liveTranscript := liveTranscript st; match_ := match_ st;
     recognition := recognition st; isInitialized := b;
     isListening := isListening st; lastIndex := lastIndex st;
     turn := turn st; engine_calls := engine_calls st;
     timers := timers st; invocations := invocations st |}.

Definition set_isListening (b : bool) (st : State) : State :=
  {| _options := _options st; transcripts := transcripts st;
     liveTranscript := liveTranscript st; match_ := match_ st;
     recognition := recognition st; isInitialized := isInitialized st;
     isListening := b; lastIndex := lastIndex st;
     turn := turn st; engine_calls := engine_calls st;
     timers := timers st; invocations := invocations st |}.

(** R.lastIndex = n, for the RegExp object R. *)
Definition set_lastIndex (R : JS.RegExp) (n : nat) (st : State) : State :=
  {| _options := _options st; transcripts := transcripts st;
     liveTranscript := liveTranscript st; match_ := match_ st;
     recognition := recognition st; isInitialized := isInitialized st;
     isListening := isListening st;
     lastIndex := fun object =>
       if object =? JS.rx_object R then n else lastIndex st object;
     turn := turn st; engine_calls := engine_calls st;
     timers := timers st; invocations := invocations st |}.

Definition next_turn (st : State) : State :=
  {| _options := _options st; transcripts := transcripts st;
     liveTranscript := liveTranscript st; match_ := match_ st;
     recognition := recognition st; isInitialized := isInitialized st;
     isListening := isListening st; lastIndex := lastIndex st;
     turn := S (turn st); engine_calls := engine_calls st;
     timers := timers st; invocations := invocations st |}.

(** recognition.current.start(), .stop() or .abort(). *)
Definition engine_call (c : EngineCall) (st : State) : State :=
  {| _options := _options st; transcripts := transcripts st;
     liveTranscript := liveTranscript st; match_ := match_ st;
     recognition := recognition st; isInitialized := isInitialized st;
     isListening := isListening st; lastIndex := lastIndex st;
     turn := turn st; engine_calls := engine_calls st ++ [(turn st, c)];
     timers := timers st; invocations := invocations st |}.

Definition set_timers (q : list Task) (st : State) : State :=
  {| _options := _options st; transcripts := transcripts st;
     liveTranscript := liveTranscript st; match_ := match_ st;
     recognition := recognition st; isInitialized := isInitialized st;
     isListening := isListening st; lastIndex := lastIndex st;
     turn := turn st; engine_calls := engine_calls st;
     timers := q; invocations := invocations st |}.

(** setTimeout(task, 0). *)
Definition setTimeout (task : Task) (st : State) : State :=
  set_timers (timers st ++ [task]) st.

(** [if (f) f(event)], for the property [slot] of the options. *)
Definition invoke (slot : Slot) (f : option Handler)
    (event : SpeechRecognitionEvent) (st : State) : State :=
  match f with
  | None => st
  | Some h =>
      {| _options := _options st; transcripts := transcripts st;
         liveTranscript := liveTranscript st; match_ := match_ st;
         recognition := recognition st; isInitialized := isInitialized st;
         isListening := isListening st; lastIndex := lastIndex st;
         turn := turn st; engine_calls := engine_calls st;
         timers := timers st;
         invocations :=
           invocations st ++ [{| via := slot; func := h; arg := event |}] |}
  end.

(* ================================================================== *)
(** ** The hook *)

(** The object spread [{ ...prev, ...startOptions }]. *)
Definition or_else {A} (o : option A) (d : A) : A :=
  match o with Some x => x | None => d end.

Definition merge (prev : Options) (startOptions : StartOptions) : Options :=
  {| continuous := or_else (so_continuous startOptions) (continuous prev);
     grammar := or_else (so_grammar startOptions) (grammar prev);
     interimResults :=
       or_else (so_interimResults startOptions) (interimResults prev);
     lang := or_else (so_lang startOptions) (lang prev);
     maxAlternatives :=
       or_else (so_maxAlternatives startOptions) (maxAlternatives prev);
     regex := or_else (so_regex startOptions) (regex prev);
     startOnLoad := startOnLoad prev;
     onaudioend := onaudioend prev; onaudiostart := onaudiostart prev;
     onend := onend prev; onerror := onerror prev;
     onnomatch := onnomatch prev; onresult := onresult prev;
     onsoundend := onsoundend prev; onsoundstart := onsoundstart prev;
     onspeechend := onspeechend prev; onspeechstart := onspeechstart prev;
     onstart := onstart prev |}.

(** [new RegExp('hello world', 'gi')]; it is object 0. *)
Definition default_regex : JS.RegExp :=
  {| JS.rx_object := 0;
     JS.RegExpMatcher := JS.literal true "hello world";
     JS.global := true;
     JS.sticky := false |}.

Definition defaults : Options :=
  {| continuous := true;
     grammar := "#JSGF V1.0; grammar word; public <word> = hello world ;";
     interimResults := true;
     lang := "en-US";
     maxAlternatives := 1%N;
     regex := default_regex;
     startOnLoad := true;
     onaudioend := None; onaudiostart := None; onend := None;
     onerror := None; onnomatch := None; onresult := None;
     onsoundend := None; onsoundstart := None; onspeechend := None;
     onspeechstart := None; onstart := None |}.

(** The initial value of [_options]: [{ ...defaults, ...options }]. *)
Definition initial_options (options : option SpeechRecognitionOptions)
  : Options :=
  match options with
  | None => defaults
  | Some u =>
      let o := merge defaults (so_start u) in
      let cb := so_callbacks u in
      {| continuous := continuous o; grammar := grammar o;
         interimResults := interimResults o; lang := lang o;
         maxAlternatives := maxAlternatives o; regex := regex o;
         startOnLoad := or_else (so_startOnLoad u) (startOnLoad o);
         onaudioend := cb Onaudioend; onaudiostart := cb Onaudiostart;
         onend := cb Onend; onerror := cb Onerror;
         onnomatch := cb Onnomatch; onresult := cb Onresult;
         onsoundend := cb Onsoundend; onsoundstart := cb Onsoundstart;
         onspeechend := cb Onspeechend; onspeechstart := cb Onspeechstart;
         onstart := cb Onstart |}
  end.

(** The state of the first render, before its effect has run. *)
Definition useSpeechRecognition (options : option SpeechRecognitionOptions)
  : State :=
  {| _options := initial_options options;
     transcripts := [];
     liveTranscript := "";
     match_ := None;
     recognition := SpeechRecognition.new;
     isInitialized := false;
     isListening := false;
     lastIndex := fun _ => 0;
     turn := 0;
     engine_calls := [];
     timers := [];
     invocations := [] |}.

(** [event.results.item(event.resultIndex)]: null out of range. *)
Definition item (event : SpeechRecognitionEvent)
  : option SpeechRecognitionResult :=
  nth_error (results event) (resultIndex event).

(** [(Math.random() * 1000000000000).toString(16).split('.')[0]]: the
    hexadecimal digits of the integer part of the product.  [random] is
    that integer part, the only thing the id keeps of the draw; it is
    below 10^12. *)
Definition new_id (random : N) : string := JS.toString16 random.

(** The draws of Math.random during the runs React makes of the updater
    of lines 98-102 for one final result.  React does not promise to run
    an updater once: in Strict Mode it runs it again.  [kept] is the draw
    of the run whose returned array becomes the state; [discarded] are
    the draws of the runs made before it, in order, whose returned arrays
    are dropped.  A run made after the kept one only changes an array the
    state no longer refers to, and is left out. *)
Record Draws := { discarded : list N; kept : N }.

(** React runs the updater once. *)
Definition once (random : N) : Draws :=
  {| discarded := []; kept := random |}.

Coercion once : N >-> Draws.

(** The updater of lines 98-102, run on the array [prev] while Math.random
    returns [random].  [prev.push(...)] changes [prev] itself, and
    [[...prev]] is a new array with the elements [prev] has by then.  The
    result is [prev] as the run leaves it, and the array returned. *)
Definition updater (confidence : float) (isFinal : bool)
    (_transcript : string) (random : N) (prev : list Transcript)
  : list Transcript * list Transcript :=
  let prev := prev ++ [{| id := new_id random;
                          confidence := confidence;
                          isFinal := isFinal;
                          transcript := _transcript |}] in
  (prev, prev).

(** The runs whose result React drops: each runs on the array of the
    state, which keeps what the run has pushed. *)
Fixpoint dropped_runs
    (u : N -> list Transcript -> list Transcript * list Transcript)
    (draws : list N) (prev : list Transcript) : list Transcript :=
  match draws with
  | [] => prev
  | random :: draws => dropped_runs u draws (fst (u random prev))
  end.

(** The array React takes as the new state: the one returned by the kept
    run, made on the array of the state after the dropped runs. *)
Definition run_updater
    (u : N -> list Transcript -> list Transcript * list Transcript)
    (random : Draws) (prev : list Transcript) : list Transcript :=
  snd (u (kept random) (dropped_runs u (discarded random) prev)).

(** [([..._transcript.matchAll(regex)].pop()?.[0] || '').toLowerCase()];
    [None] when matchAll throws. *)
Definition matchedColor (R : JS.RegExp) (_transcript : string) (st : State)
  : option string :=
  match JS.matchAll _transcript R (lastIndex st (JS.rx_object R)) with
  | None => None
  | Some all => Some (JS.toLowerCase (or_else (JS.pop all) ""))
  end.

(** The pattern-match step of handleResult, lines 108-115: the state
    afterwards, or [None] when matchAll throws. *)
Definition scan (R : JS.RegExp) (_transcript : string) (st : State)
  : option State :=
  match matchedColor R _transcript st with
  | None => None
  | Some color =>
      let (found, li) := JS.test R color (lastIndex st (JS.rx_object R)) in
      let st := set_lastIndex R li st in
      Some (if found then setMatch (Some color) st else setMatch None st)
  end.

(** handleResult, as created by a render whose options are [o].  [random]
    holds the draws of Math.random, made only for a final result, one for
    each run of the updater. *)
Definition handleResult (o : Options) (random : Draws)
    (event : SpeechRecognitionEvent) (st : State) : Completion :=
  match item event with
  | None => TypeError st
  | Some result =>
      match res_alternatives result with
      | [] => TypeError st
      | alt :: _ =>
          let confidence := alt_confidence alt in
          let isFinal := res_isFinal result in
          let _transcript := alt_transcript alt in
          let st :=
            if res_isFinal result then
              setLiveTranscript ""
                (setTranscripts
                   (run_updater
                      (updater confidence isFinal _transcript) random)
                   st)
            else setLiveTranscript (alt_transcript alt) st in
          match scan (regex o) _transcript st with
          | None => TypeError st
          | Some st => Normal (invoke Onresult (onresult o) event st)
          end
      end
  end.

Definition handleStart (o : Options) (event : SpeechRecognitionEvent)
    (st : State) : State :=
  let st := invoke Onend (onend o) event st in
  set_isListening true st.

Definition handleEnd (o : Options) (event : SpeechRecognitionEvent)
    (st : State) : State :=
  let st := engine_call EngineStop st in
  let st := if continuous o then setTimeout RecognitionStart st else st in
  let st := invoke Onend (onend o) event st in
  set_isListening false st.

Definition start (startOptions : option StartOptions) (st : State) : State :=
  let st :=
    match startOptions with
    | Some so => setOptions (fun prev => merge prev so) st
    | None => st
    end in
  if isListening st then st else engine_call EngineStart st.

Definition restart (startOptions : option StartOptions) (st : State)
  : State :=
  let st := engine_call EngineStop st in
  setTimeout (Start startOptions) st.

Definition abort (st : State) : State := engine_call EngineAbort st.
Definition stop (st : State) : State := engine_call EngineStop st.

(** The listeners initializeSpeechRecognition installs, lines 175-186. *)
Definition wire (o : Options) (slot : Slot) : Listener :=
  match slot with
  | Onaudioend => Callback Onaudioend (onaudioend o)
  | Onaudiostart => Callback Onaudiostart (onaudiostart o)
  | Onend => HandleEnd o
  | Onerror => Direct Onerror (onerror o)
  | Onnomatch => Direct Onnomatch (onnomatch o)
  | Onresult => HandleResult o
  | Onsoundend => Callback Onsoundend (onsoundend o)
  | Onsoundstart => Callback Onsoundstart (onsoundstart o)
  | Onspeechend => Callback Onspeechend (onspeechend o)
  | Onspeechstart => Callback Onspeechstart (onspeechstart o)
  | Onstart => HandleStart o
  end.

(** initializeSpeechRecognition, as created by the render whose effect
    calls it: its [_options] are those of the state. *)
Definition initializeSpeechRecognition (st : State) : State :=
  let o := _options st in
  let speechRecognitionList := [(grammar o, 1%N)] in
  let st :=
    set_recognition
      {| SpeechRecognition.grammars := speechRecognitionList;
         SpeechRecognition.continuous := continuous o;
         SpeechRecognition.interimResults := interimResults o;
         SpeechRecognition.lang := lang o;
         SpeechRecognition.maxAlternatives := maxAlternatives o;
         SpeechRecognition.listeners := wire o |} st in
  let st := set_isInitialized true st in
  if startOnLoad o then engine_call EngineStart st else st.

(** The effect, lines 211-213. *)
Definition useEffect (st : State) : State :=
  if isInitialized st then st else initializeSpeechRecognition st.

(** Mounting: the first render and its effect. *)
Definition mount (options : option SpeechRecognitionOptions) : State :=
  useEffect (useSpeechRecognition options).

(* ================================================================== *)
(** ** The event loop *)

(** The engine delivers a notification: the listener in the slot runs. *)
Definition notify (slot : Slot) (random : Draws)
    (event : SpeechRecognitionEvent) (st : State) : Completion :=
  match SpeechRecognition.listeners (recognition st) slot with
  | NoListener => Normal st
  | HandleEnd o => Normal (handleEnd o event st)
  | HandleResult o => handleResult o random event st
  | HandleStart o => Normal (handleStart o event st)
  | Callback s f => Normal (invoke s f event st)
  | Direct s f => Normal (invoke s f event st)
  end.

Definition run_task (task : Task) (st : State) : State :=
  match task with
  | RecognitionStart => engine_call EngineStart st
  | Start startOptions => start startOptions st
  end.

(** One task of the event loop. *)
Inductive Action :=
| Notify (slot : Slot) (random : Draws) (event : SpeechRecognitionEvent)
| CallStart (startOptions : option StartOptions)
| CallRestart (startOptions : option StartOptions)
| CallStop
| CallAbort
| Timeout      (* the oldest pending timer fires *)
| Render.      (* React renders again and runs the effect *)

Definition step (a : Action) (st : State) : State :=
  let st := next_turn st in
  match a with
  | Notify slot random event => state_of (notify slot random event st)
  | CallStart startOptions => start startOptions st
  | CallRestart startOptions => restart startOptions st
  | CallStop => stop st
  | CallAbort => abort st
  | Timeout =>
      match timers st with
      | [] => st
      | task :: rest => run_task task (set_timers rest st)
      end
  | Render => useEffect st
  end.

Definition run (actions : list Action) (st : State) : State :=
  fold_left (fun st a => step a st) actions st.

(** A result event with one result, which has one alternative. *)
Definition result_event (final : bool) (c : float) (text : string)
  : SpeechRecognitionEvent :=
  {| resultIndex := 0;
     results := [{| res_isFinal := final;
                    res_alternatives :=
                      [{| alt_transcript := text; alt_confidence := c |}] |}]
  |}.

(** An event that carries no result. *)
Definition plain_event : SpeechRecognitionEvent :=
  {| resultIndex := 0; results := [] |}.

(* ================================================================== *)
(** ** Reading events, and the inputs of the examples *)

(** The first alternative of the result the event points at, as
    handleResult reads it: finality, confidence and text. *)
Definition reading (event : SpeechRecognitionEvent)
  : option (bool * float * string) :=
  match item event with
  | Some result =>
      match res_alternatives result with
      | alt :: _ =>
          Some (res_isFinal result, alt_confidence alt, alt_transcript alt)
      | [] => None
      end
  | None => None
  end.

Definition is_interim (event : SpeechRecognitionEvent) : bool :=
  match reading event with
  | Some (false, _, _) => true
  | _ => false
  end.

(** The notifications of a list of result events, each with the draws
    Math.random would give during it. *)
Definition result_notifications
    (l : list (Draws * SpeechRecognitionEvent)) : list Action :=
  map (fun p => Notify Onresult (fst p) (snd p)) l.

(** Options that turn continuous mode off. *)
Definition not_continuous : SpeechRecognitionOptions :=
  {| so_start := {| so_continuous := Some false; so_grammar := None;
                    so_interimResults := None; so_lang := None;
                    so_maxAlternatives := None; so_regex := None |};
     so_startOnLoad := None;
     so_callbacks := fun _ => None |}.

(** Two interim results. *)
Definition sample_interims : list (Draws * SpeechRecognitionEvent) :=
  [(once 0, result_event false 0.25 "hel");
   (once 0, result_event false 0.5 "hello wor")].

(** React runs the updater twice and keeps what the second run returns;
    [first] and [second] are the draws of the two runs. *)
Definition run_twice (first second : N) : Draws :=
  {| discarded := [first]; kept := second |}.

(** Overrides that only set [continuous]. *)
Definition only_continuous (b : bool) : StartOptions :=
  {| so_continuous := Some b; so_grammar := None;
     so_interimResults := None; so_lang := None;
     so_maxAlternatives := None; so_regex := None |}.

(** A text that holds the default pattern twice. *)
Definition twice : string := "I said hello world twice: hello world".

(** Options that do not start the engine on load, and overrides that
    change every configuration field of the engine. *)
Definition idle_on_load : SpeechRecognitionOptions :=
  {| so_start := {| so_continuous := None; so_grammar := None;
                    so_interimResults := None; so_lang := None;
                    so_maxAlternatives := None; so_regex := None |};
     so_startOnLoad := Some false;
     so_callbacks := fun _ => None |}.

Definition french : StartOptions :=
  {| so_continuous := Some false;
     so_grammar :=
       Some "#JSGF V1.0; grammar word; public <word> = bonjour ;";
     so_interimResults := Some false;
     so_lang := Some "fr-FR";
     so_maxAlternatives := Some 3%N;
     so_regex := None |}.

(* ================================================================== *)
(** ** What a sequence of tasks should leave behind *)

(** The entry a run of the updater pushes for a final result of
    confidence [c] and text [text], and the entries of all the runs React
    makes for it, in order. *)
Definition entry (c : float) (text : string) (random : N) : Transcript :=
  {| id := new_id random; confidence := c; isFinal := true;
     transcript := text |}.

Definition entries (c : float) (text : string) (random : Draws)
  : list Transcript :=
  map (entry c text) (discarded random) ++ [entry c text (kept random)].

(** The entries a task adds to the ledger: those of its result when it is
    a result notification whose result is final, none otherwise. *)
Definition entry_of (a : Action) : list Transcript :=
  match a with
  | Notify Onresult random event =>
      match reading event with
      | Some (true, c, text) => entries c text random
      | _ => []
      end
  | _ => []
  end.

(** The live transcript after a task, from the one before it. *)
Definition live_after (live : string) (a : Action) : string :=
  match a with
  | Notify Onresult _ event =>
      match reading event with
      | Some (true, _, _) => ""
      | Some (false, _, text) => text
      | None => live
      end
  | _ => live
  end.

(** The listening flag after a task, from the one before it. *)
Definition listening_after (listening : bool) (a : Action) : bool :=
  match a with
  | Notify Onstart _ _ => true
  | Notify Onend _ _ => false
  | _ => listening
  end.

(** The slots whose listener only forwards the event to the caller's
    callback: all but end, result and start. *)
Definition is_passthrough (slot : Slot) : bool :=
  match slot with
  | Onend | Onresult | Onstart => false
  | _ => true
  end.

(** The property of the options named like the slot. *)
Definition callback_of (o : Options) (slot : Slot) : option Handler :=
  match slot with
  | Onaudioend => onaudioend o
  | Onaudiostart => onaudiostart o
  | Onend => onend o
  | Onerror => onerror o
  | Onnomatch => onnomatch o
  | Onresult => onresult o
  | Onsoundend => onsoundend o
  | Onsoundstart => onsoundstart o
  | Onspeechend => onspeechend o
  | Onspeechstart => onspeechstart o
  | Onstart => onstart o
  end.

(** The call of a callback, if there is one, as a list of invocations. *)
Definition called (slot : Slot) (f : option Handler)
    (event : SpeechRecognitionEvent) : list Invocation :=
  match f with
  | Some h => [{| via := slot; func := h; arg := event |}]
  | None => []
  end.

(** Overrides with no property, and the overrides that amount to [first]
    followed by [second]. *)
Definition no_overrides : StartOptions :=
  {| so_continuous := None; so_grammar := None; so_interimResults := None;
     so_lang := None; so_maxAlternatives := None; so_regex := None |}.

Definition or_first {A} (second first : option A) : option A :=
  match second with Some x => Some x | None => first end.

Definition then_overrides (first second : StartOptions) : StartOptions :=
  {| so_continuous := or_first (so_continuous second) (so_continuous first);
     so_grammar := or_first (so_grammar second) (so_grammar first);
     so_interimResults :=
       or_first (so_interimResults second) (so_interimResults first);
     so_lang := or_first (so_lang second) (so_lang first);
     so_maxAlternatives :=
       or_first (so_maxAlternatives second) (so_maxAlternatives first);
     so_regex := or_first (so_regex second) (so_regex first) |}.

(** A character of the lower-case hexadecimal notation. *)
Definition is_hex_digit (c : ascii) : bool :=
  let n := nat_of_ascii c in
  ((48 <=? n) && (n <=? 57)) || ((97 <=? n) && (n <=? 102)).

Fixpoint string_forall (p : ascii -> bool) (s : string) : bool :=
  match s with
  | EmptyString => true
  | String c s' => p c && string_forall p s'
  end.

(** A case-sensitive global pattern of literal characters, as
    [new RegExp(pattern, 'g')] makes one. *)
Definition case_sensitive (object : nat) (pattern : string) : JS.RegExp :=
  {| JS.rx_object := object;
     JS.RegExpMatcher := JS.literal false pattern;
     JS.global := true;
     JS.sticky := false |}.

(** A pattern without the g flag. *)
Definition not_global (object : nat) (pattern : string) : JS.RegExp :=
  {| JS.rx_object := object;
     JS.RegExpMatcher := JS.literal true pattern;
     JS.global := false;
     JS.sticky := false |}.

(** The options of a caller who gives [R] as pattern and [h] as onresult
    callback. *)
Definition with_regex (R : JS.RegExp) (h : option Handler)
  : SpeechRecognitionOptions :=
  {| so_start := {| so_continuous := None; so_grammar := None;
                    so_interimResults := None; so_lang := None;
                    so_maxAlternatives := None; so_regex := Some R |};
     so_startOnLoad := None;
     so_callbacks := fun slot =>
       match slot with Onresult => h | _ => None end |}.

(** A global pattern of literal characters, as
    [new RegExp(pattern, ignoreCase ? 'gi' : 'g')] makes one; the default
    pattern is [literal_regexp 0 true "hello world"]. *)
Definition literal_regexp (object : nat) (ignoreCase : bool)
    (pattern : string) : JS.RegExp :=
  {| JS.rx_object := object;
     JS.RegExpMatcher := JS.literal ignoreCase pattern;
     JS.global := true;
     JS.sticky := false |}.

(* ================================================================== *)
(** ** Facts about the built-ins *)

Module JSFacts.
Import JS.

Lemma substring_zero (s : string) (n : nat) : substring n 0 s = "".
Proof.
  revert n; induction s as [|c s IH]; intros [|n]; simpl; auto.
Qed.

(** A match found by the search loop starts at or after the index the
    search started from, and does not end before it starts. *)
Lemma exec_loop_forward (R : RegExp) (str : string) :
  forall tries from i e,
    exec_loop R str from tries = Some (i, e) -> from <= i /\ i <= e.
Proof.
  induction tries as [|k IH]; simpl; intros from i e H; [discriminate|].
  destruct (RegExpMatcher R str from) as [n|].
  - injection H as <- <-. lia.
  - destruct (sticky R); [discriminate|].
    apply IH in H. lia.
Qed.

Lemma exec_loop_exhausted (R : RegExp) (str : string) (from : nat) :
  String.length str < from ->
  exec_loop R str from (String.length str + 1 - from) = None.
Proof.
  intros H. replace (String.length str + 1 - from) with 0 by lia.
  reflexivity.
Qed.

(** Each round of the iterator of a global expression leaves lastIndex
    strictly further than it found it. *)
Lemma iterator_advances (R : RegExp) (str : string) (li : nat) m e :
  global R = true ->
  RegExpBuiltinExec R str li = (Some m, e) ->
  li < (if is_empty (matched m) then e + 1 else e).
Proof.
  unfold RegExpBuiltinExec. intros G. rewrite G. simpl.
  destruct (exec_loop R str li (String.length str + 1 - li))
    as [[i e']|] eqn:E; [|discriminate].
  intros H. injection H as <- <-. simpl.
  apply exec_loop_forward in E. destruct E as [E1 E2].
  destruct (e' - i) as [|d] eqn:D.
  - rewrite substring_zero. simpl. lia.
  - destruct (is_empty (substring i (S d) str)); lia.
Qed.

(** The iterator is total: the fuel [matchAll] gives it is never used
    up, more fuel changes nothing. *)
Lemma iterator_fuel (R : RegExp) (str : string) :
  global R = true ->
  forall fuel li extra,
    String.length str + 2 <= fuel + li ->
    RegExpStringIterator R str li (fuel + extra)
    = RegExpStringIterator R str li fuel.
Proof.
  intros G. induction fuel as [|fuel IH]; intros li extra H.
  - simpl. destruct extra as [|extra]; [reflexivity|]. simpl.
    unfold RegExpBuiltinExec. rewrite G. simpl.
    rewrite exec_loop_exhausted by lia. reflexivity.
  - simpl. destruct (RegExpBuiltinExec R str li) as [[m|] e] eqn:E;
      [|reflexivity].
    f_equal. apply IH.
    pose proof (iterator_advances R str li G E). lia.
Qed.

Lemma matchAll_total (R : RegExp) (str : string) (li extra : nat) :
  global R = true ->
  matchAll str R li
  = Some (RegExpStringIterator R str li (String.length str + 2 + extra)).
Proof.
  intros G. unfold matchAll. rewrite G. f_equal. symmetry.
  apply iterator_fuel; [assumption|lia].
Qed.

(** Two integers with the same hexadecimal digits are equal. *)
Lemma toString16_inj (a b : N) : toString16 a = toString16 b -> a = b.
Proof.
  unfold toString16. intros H.
  assert (U : forall n, NilZero.uint_of_string
                          (NilZero.string_of_uint (N.to_hex_uint n))
                        = Some (N.to_hex_uint n)).
  { intros n. apply NilZero.usu. destruct n as [|p]; [discriminate|].
    apply HexadecimalPos.Unsigned.to_uint_nonnil. }
  apply Unsigned.to_uint_inj.
  pose proof (U a) as Ha. rewrite H, U in Ha. congruence.
Qed.

Lemma pop_snoc {A} (l : list A) (x : A) : pop (l ++ [x]) = Some x.
Proof.
  unfold pop. rewrite map_app. simpl. apply last_last.
Qed.

End JSFacts.

(* ================================================================== *)
(** ** What each function leaves alone *)

Ltac open_scan :=
  unfold scan, matchedColor;
  repeat match goal with
    | |- context [JS.matchAll ?t ?R ?n] => destruct (JS.matchAll t R n)
    | |- context [JS.test ?R ?c ?n] => destruct (JS.test R c n) as [[|] ?]
    end.

Ltac open_result :=
  unfold handleResult;
  repeat match goal with
    | |- context [item ?e] => destruct (item e) as [?result|]
    | |- context [res_alternatives ?r] =>
        destruct (res_alternatives r) as [|?alt ?alts]
    | |- context [res_isFinal ?r] => destruct (res_isFinal r)
    end;
  open_scan;
  repeat match goal with
    | |- context [onresult ?o] => destruct (onresult o)
    end.

(** Each run of the updater, dropped or kept, leaves one more entry in the
    array that becomes the state. *)
Lemma dropped_runs_updater (c : float) (text : string) (draws : list N) :
  forall prev,
    dropped_runs (updater c true text) draws prev
    = prev ++ map (entry c text) draws.
Proof.
  induction draws as [|r draws IH]; intros prev; simpl.
  - rewrite app_nil_r. reflexivity.
  - rewrite IH, <- app_assoc. reflexivity.
Qed.

Lemma run_updater_entries (c : float) (text : string) (random : Draws)
    (prev : list Transcript) :
  run_updater (updater c true text) random prev
  = prev ++ entries c text random.
Proof.
  unfold run_updater, entries. simpl.
  rewrite dropped_runs_updater, <- app_assoc. reflexivity.
Qed.

Arguments run_updater : simpl never.

Section Frames.
Variables (o : Options) (random : Draws) (event : SpeechRecognitionEvent).
Variable st : State.

Lemma scan_ledger (R : JS.RegExp) (text : string) (st' : State) :
  scan R text st = Some st' ->
  transcripts st' = transcripts st
  /\ liveTranscript st' = liveTranscript st
  /\ invocations st' = invocations st.
Proof.
  open_scan; intros H; inversion H; subst; simpl; auto.
Qed.

Lemma handleResult_engine :
  let st' := state_of (handleResult o random event st) in
  recognition st' = recognition st
  /\ isInitialized st' = isInitialized st
  /\ isListening st' = isListening st
  /\ engine_calls st' = engine_calls st
  /\ timers st' = timers st
  /\ turn st' = turn st
  /\ _options st' = _options st.
Proof.
  open_result; simpl; auto 10.
Qed.

Lemma handleResult_ledger (final : bool) (c : float) (text : string) :
  reading event = Some (final, c, text) ->
  let st' := state_of (handleResult o random event st) in
  transcripts st'
  = (if final
     then transcripts st ++ entries c text random
     else transcripts st)
  /\ liveTranscript st' = (if final then "" else text).
Proof.
  unfold reading, handleResult.
  destruct (item event) as [result|]; [|discriminate].
  destruct (res_alternatives result) as [|alt alts]; [discriminate|].
  intros H; injection H as <- <- <-.
  destruct (res_isFinal result); open_scan;
    try destruct (onresult o); simpl;
    rewrite ?run_updater_entries; auto.
Qed.

Lemma handleResult_invocations :
  exists more,
    invocations (state_of (handleResult o random event st))
    = invocations st ++ more
    /\ Forall (fun i => via i = Onresult) more.
Proof.
  open_result; simpl;
    solve [ exists []; rewrite app_nil_r; auto
          | eexists [_]; split; [reflexivity|]; repeat constructor ].
Qed.

End Frames.

(* ================================================================== *)
(** ** Invariants of the event loop *)

Lemma mount_recognition (options : option SpeechRecognitionOptions) :
  let o := initial_options options in
  recognition (mount options)
  = {| SpeechRecognition.grammars := [(grammar o, 1%N)];
       SpeechRecognition.continuous := continuous o;
       SpeechRecognition.interimResults := interimResults o;
       SpeechRecognition.lang := lang o;
       SpeechRecognition.maxAlternatives := maxAlternatives o;
       SpeechRecognition.listeners := wire o |}
  /\ isInitialized (mount options) = true.
Proof.
  unfold mount, useEffect, initializeSpeechRecognition. simpl.
  destruct (startOnLoad (initial_options options)); simpl; auto.
Qed.

(** Once the effect has run, nothing writes the engine object again: the
    effect is the only writer, and it is guarded by isInitialized. *)
Lemma step_recognition (a : Action) (st : State) :
  isInitialized st = true ->
  recognition (step a st) = recognition st
  /\ isInitialized (step a st) = true.
Proof.
  intros I. destruct a as [slot random event|so|so| | | | ]; unfold step.
  - unfold notify. simpl.
    destruct (SpeechRecognition.listeners (recognition st) slot)
      as [|o|o|o|s f|s f]; simpl; auto.
    + unfold handleEnd. destruct (continuous o), (onend o); simpl; auto.
    + destruct (handleResult_engine o random event (next_turn st))
        as (-> & -> & _). simpl; auto.
    + unfold handleStart. destruct (onend o); simpl; auto.
    + destruct f; simpl; auto.
    + destruct f; simpl; auto.
  - unfold start. destruct so; simpl; destruct (isListening st); simpl; auto.
  - simpl; auto.
  - simpl; auto.
  - simpl; auto.
  - simpl. destruct (timers st) as [|[|so] rest]; simpl; auto.
    unfold start. destruct so; simpl; destruct (isListening st); simpl; auto.
  - unfold useEffect. simpl. rewrite I. simpl; auto.
Qed.

Lemma run_recognition (actions : list Action) :
  forall st,
    isInitialized st = true ->
    recognition (run actions st) = recognition st
    /\ isInitialized (run actions st) = true.
Proof.
  induction actions as [|a actions IH]; intros st I; simpl; [auto|].
  destruct (step_recognition a st I) as [R I'].
  destruct (IH _ I') as [R' I'']. split; congruence.
Qed.

(** The listeners in place in any state the hook can reach are the ones
    the first effect installed, closed over the first [_options]. *)
Lemma reachable_listeners (options : option SpeechRecognitionOptions)
    (actions : list Action) :
  SpeechRecognition.listeners (recognition (run actions (mount options)))
  = wire (initial_options options).
Proof.
  destruct (mount_recognition options) as [R I].
  destruct (run_recognition actions _ I) as [-> _]. rewrite R. reflexivity.
Qed.

(** Every call made on the engine during a task of the event loop is
    logged with the number of that task. *)
Lemma step_engine_calls (a : Action) (st : State) :
  turn (step a st) = S (turn st)
  /\ exists more,
       engine_calls (step a st) = engine_calls st ++ more
       /\ Forall (fun c => fst c = S (turn st)) more.
Proof.
  assert (Z : forall l : list (nat * EngineCall),
             exists more, l = l ++ more
                          /\ Forall (fun c => fst c = S (turn st)) more).
  { intros l. exists []. rewrite app_nil_r. auto. }
  assert (O : forall (l : list (nat * EngineCall)) c,
             exists more, l ++ [(S (turn st), c)] = l ++ more
                          /\ Forall (fun c => fst c = S (turn st)) more).
  { intros l c. eexists [_]. split; [reflexivity|]. repeat constructor. }
  destruct a as [slot random event|so|so| | | | ]; unfold step.
  - unfold notify. simpl.
    destruct (SpeechRecognition.listeners (recognition st) slot)
      as [|o|o|o|s f|s f]; simpl; auto.
    + unfold handleEnd. destruct (continuous o), (onend o); simpl; auto.
    + destruct (handleResult_engine o random event (next_turn st))
        as (_ & _ & _ & -> & _ & -> & _). simpl; auto.
    + unfold handleStart. destruct (onend o); simpl; auto.
    + destruct f; simpl; auto.
    + destruct f; simpl; auto.
  - unfold start. destruct so; simpl; destruct (isListening st); simpl; auto.
  - simpl; auto.
  - simpl; auto.
  - simpl; auto.
  - simpl. destruct (timers st) as [|[|so] rest]; simpl; auto.
    unfold start. destruct so; simpl; destruct (isListening st); simpl; auto.
  - unfold useEffect, initializeSpeechRecognition. simpl.
    destruct (isInitialized st); simpl; auto.
    destruct (startOnLoad (_options st)); simpl; auto.
Qed.

Lemma run_engine_calls (actions : list Action) :
  forall st,
    exists more,
      engine_calls (run actions st) = engine_calls st ++ more
      /\ Forall (fun c => turn st < fst c) more.
Proof.
  induction actions as [|a actions IH]; intros st; simpl.
  - exists []. rewrite app_nil_r. auto.
  - destruct (step_engine_calls a st) as (T & m1 & E1 & F1).
    destruct (IH (step a st)) as (m2 & E2 & F2).
    exists (m1 ++ m2). split.
    + rewrite E2, E1, app_assoc. reflexivity.
    + apply Forall_app. split.
      * eapply Forall_impl; [|exact F1]. simpl. intros c Hc. lia.
      * eapply Forall_impl; [|exact F2]. simpl. intros c Hc. lia.
Qed.

(** No listener that [wire] installs reads the property onstart. *)
Lemma step_invocations (o : Options) (a : Action) (st : State) :
  SpeechRecognition.listeners (recognition st) = wire o ->
  exists more,
    invocations (step a st) = invocations st ++ more
    /\ Forall (fun i => via i <> Onstart) more.
Proof.
  intros W.
  assert (Z : forall l : list Invocation,
             exists more, l = l ++ more
                          /\ Forall (fun i => via i <> Onstart) more).
  { intros l. exists []. rewrite app_nil_r. auto. }
  assert (O : forall (l : list Invocation) s h e, s <> Onstart ->
             exists more,
               l ++ [{| via := s; func := h; arg := e |}] = l ++ more
               /\ Forall (fun i => via i <> Onstart) more).
  { intros l s h e N. eexists [_]. split; [reflexivity|].
    repeat constructor. exact N. }
  destruct a as [slot random event|so|so| | | | ]; unfold step.
  - unfold notify. simpl. rewrite W.
    destruct slot; simpl;
      try match goal with
        | |- context [invoke ?s ?f _ _] =>
            destruct f; simpl; auto; apply O; discriminate
        end.
    + destruct (continuous o), (onend o); simpl; auto; apply O; discriminate.
    + destruct (handleResult_invocations o random event (next_turn st))
        as (more & -> & F). exists more. split; [reflexivity|].
      eapply Forall_impl; [|exact F]. simpl. intros i ->. discriminate.
  - unfold start. destruct so; simpl; destruct (isListening st); simpl; auto.
  - simpl; auto.
  - simpl; auto.
  - simpl; auto.
  - simpl. destruct (timers st) as [|[|so] rest]; simpl; auto.
    unfold start. destruct so; simpl; destruct (isListening st); simpl; auto.
  - unfold useEffect, initializeSpeechRecognition. simpl.
    destruct (isInitialized st); simpl; auto.
    destruct (startOnLoad (_options st)); simpl; auto.
Qed.

Arguments step : simpl never.

Lemma run_invocations (o : Options) (actions : list Action) :
  forall st,
    isInitialized st = true ->
    SpeechRecognition.listeners (recognition st) = wire o ->
    Forall (fun i => via i <> Onstart) (invocations st) ->
    Forall (fun i => via i <> Onstart) (invocations (run actions st)).
Proof.
  induction actions as [|a actions IH]; intros st I W F; simpl; [exact F|].
  destruct (step_recognition a st I) as [R I'].
  destruct (step_invocations a st W) as (more & E & F').
  apply IH; [exact I'|rewrite R; exact W|].
  rewrite E. apply Forall_app. auto.
Qed.

Lemma mount_invocations (options : option SpeechRecognitionOptions) :
  invocations (mount options) = [].
Proof.
  unfold mount, useEffect, initializeSpeechRecognition. simpl.
  destruct (startOnLoad (initial_options options)); reflexivity.
Qed.

(** One result notification, seen from the ledger. *)
Lemma step_result (o : Options) (random : Draws)
    (event : SpeechRecognitionEvent) (st : State)
    (final : bool) (c : float) (text : string) :
  SpeechRecognition.listeners (recognition st) Onresult = HandleResult o ->
  reading event = Some (final, c, text) ->
  let st' := step (Notify Onresult random event) st in
  transcripts st'
  = (if final
     then transcripts st ++ entries c text random
     else transcripts st)
  /\ liveTranscript st' = (if final then "" else text)
  /\ recognition st' = recognition st.
Proof.
  intros W Rd. unfold step, notify. simpl. rewrite W.
  destruct (@handleResult_ledger o random event (next_turn st) _ _ _ Rd)
    as [T L].
  destruct (handleResult_engine o random event (next_turn st)) as [R _].
  rewrite T, L, R. simpl. auto.
Qed.

Lemma is_interim_reading (event : SpeechRecognitionEvent) :
  is_interim event = true ->
  exists c text, reading event = Some (false, c, text).
Proof.
  unfold is_interim. destruct (reading event) as [[[[|] c] text]|];
    try discriminate. eauto.
Qed.

(** Interim results never reach the ledger. *)
Lemma run_interims (o : Options) (l : list (Draws * SpeechRecognitionEvent)) :
  forall st,
    SpeechRecognition.listeners (recognition st) Onresult = HandleResult o ->
    Forall (fun p => is_interim (snd p) = true) l ->
    transcripts (run (result_notifications l) st) = transcripts st
    /\ recognition (run (result_notifications l) st) = recognition st.
Proof.
  induction l as [|[r e] l IH]; intros st W F; simpl; [auto|].
  inversion F as [|p l' Hp Hl]; subst. simpl in Hp.
  destruct (is_interim_reading e Hp) as (c & text & Rd).
  destruct (@step_result o r e st _ _ _ W Rd) as (T & _ & R).
  lazy beta iota zeta in T.
  destruct (IH (step (Notify Onresult r e) st)) as [T' R'];
    [rewrite R; exact W|exact Hl|].
  split; congruence.
Qed.

(* ================================================================== *)
(** ** The session lifecycle *)

(** What handleEnd does, in terms of the options it closes over.  When
    the engine's end notification fires, handleEnd calls the engine's
    stop exactly once and the listening flag becomes false.  If the
    [continuous] of the options handleEnd closes over is true, it
    queues exactly one deferred call of the engine's start: the event loop
    task that runs it calls start once, and the start notification that
    follows sets the listening flag again.  If it is false, nothing is
    queued and the flag stays false. *)
Theorem end_notification_restarts_in_continuous_mode
    (o o' : Options) (random : Draws) (event : SpeechRecognitionEvent)
    (st : State) :
  SpeechRecognition.listeners (recognition st) Onend = HandleEnd o ->
  SpeechRecognition.listeners (recognition st) Onstart = HandleStart o' ->
  let st1 := step (Notify Onend random event) st in
  engine_calls st1 = engine_calls st ++ [(turn st1, EngineStop)]
  /\ isListening st1 = false
  /\ (continuous o = true ->
      timers st1 = timers st ++ [RecognitionStart]
      /\ (timers st = [] ->
          forall random' event',
            let st2 := step Timeout st1 in
            let st3 := step (Notify Onstart random' event') st2 in
            engine_calls st2 = engine_calls st1 ++ [(turn st2, EngineStart)]
            /\ timers st2 = []
            /\ isListening st3 = true))
  /\ (continuous o = false -> timers st1 = timers st).
Proof.
  intros We Ws st1.
  assert (E : st1 = handleEnd o event (next_turn st)).
  { unfold st1, step, notify. simpl. rewrite We. reflexivity. }
  assert (R : recognition st1 = recognition st).
  { rewrite E. unfold handleEnd.
    destruct (continuous o), (onend o); reflexivity. }
  split; [|split; [|split]].
  - rewrite E. unfold handleEnd.
    destruct (continuous o), (onend o); reflexivity.
  - rewrite E. unfold handleEnd.
    destruct (continuous o), (onend o); reflexivity.
  - intros C. assert (T : timers st1 = timers st ++ [RecognitionStart]).
    { rewrite E. unfold handleEnd. rewrite C.
      destruct (onend o); reflexivity. }
    split; [exact T|]. intros Q random' event' st2 st3.
    rewrite Q in T. simpl in T.
    assert (E2 : st2 = engine_call EngineStart
                         (set_timers [] (next_turn st1))).
    { unfold st2, step. simpl. rewrite T. reflexivity. }
    split; [rewrite E2; reflexivity|]. split; [rewrite E2; reflexivity|].
    unfold st3, step, notify. simpl. rewrite E2. simpl. rewrite R, Ws.
    reflexivity.
  - intros C. rewrite E. unfold handleEnd. rewrite C.
    destruct (onend o); reflexivity.
Qed.

Lemma end_notification_restarts_in_continuous_mode_witness :
  (let st1 := step (Notify Onend 0%N plain_event) (mount None) in
   timers st1 = [RecognitionStart]
   /\ isListening
        (step (Notify Onstart 0%N plain_event) (step Timeout st1)) = true)
  /\ timers (step (Notify Onend 0%N plain_event)
               (mount (Some not_continuous))) = [].
Proof.
  split.
  - destruct (@end_notification_restarts_in_continuous_mode
                defaults defaults 0%N plain_event (mount None)
                eq_refl eq_refl) as (_ & _ & H & _).
    destruct (H eq_refl) as [T L].
    split; [exact T|]. exact (proj2 (proj2 (L eq_refl 0%N plain_event))).
  - destruct (@end_notification_restarts_in_continuous_mode
                (initial_options (Some not_continuous))
                (initial_options (Some not_continuous))
                0%N plain_event (mount (Some not_continuous))
                eq_refl eq_refl) as (_ & _ & _ & H).
    exact (H eq_refl).
Defined.

(** C1, at the inputs where the code departs from it.  The handler the
    engine calls is the one of the first render, so the continuous mode
    it reads is the initial one, not the one of the active options.  A
    hook mounted in continuous mode and then given start({continuous:
    false}): the active options say continuous is false, yet the end
    notification queues a start and the timer starts the engine again.
    A hook mounted with continuous false and then given start({continuous:
    true}): the active options say continuous is true, yet the end
    notification queues nothing and the session stays idle. *)
Theorem end_notification_ignores_the_active_continuous :
  let off :=
    run [Notify Onstart 0%N plain_event;
         CallStart (Some (only_continuous false)); Render] (mount None) in
  let off' := run [Notify Onend 0%N plain_event; Timeout] off in
  let on :=
    run [Notify Onstart 0%N plain_event;
         CallStart (Some (only_continuous true)); Render]
        (mount (Some not_continuous)) in
  let on' := step (Notify Onend 0%N plain_event) on in
  continuous (_options off) = false
  /\ isListening off = true
  /\ timers (step (Notify Onend 0%N plain_event) off) = [RecognitionStart]
  /\ engine_calls off'
     = [(0, EngineStart); (4, EngineStop); (5, EngineStart)]
  /\ continuous (_options on) = true
  /\ isListening on = true
  /\ timers on' = []
  /\ isListening on' = false
  /\ engine_calls on' = [(0, EngineStart); (4, EngineStop)].
Proof.
  vm_compute. repeat split; reflexivity.
Qed.

(** C5.  While the listening flag is true, start, with or without
    overrides, makes no call on the engine and queues nothing. *)
Theorem start_while_listening_is_absorbed
    (startOptions : option StartOptions) (st : State) :
  isListening st = true ->
  engine_calls (start startOptions st) = engine_calls st
  /\ timers (start startOptions st) = timers st
  /\ engine_calls (step (CallStart startOptions) st) = engine_calls st.
Proof.
  intros L. unfold step, start.
  destruct startOptions; simpl; rewrite L; simpl; auto.
Qed.

Lemma start_while_listening_is_absorbed_witness :
  let st := step (Notify Onstart 0%N plain_event) (mount None) in
  isListening st = true
  /\ engine_calls (step (CallStart None) st) = [(0, EngineStart)].
Proof.
  split; [reflexivity|].
  exact (proj2 (proj2 (@start_while_listening_is_absorbed None
           (step (Notify Onstart 0%N plain_event) (mount None)) eq_refl))).
Defined.

(** C6.  restart calls the engine's stop and returns having queued
    start(overrides) with setTimeout: when it returns, the only call it
    has made on the engine is the stop.  The queued function is run by a
    later task of the event loop, where it is start(overrides); every call
    the engine receives after restart has returned, a start included,
    belongs to a task later than the one restart ran in. *)
Theorem restart_defers_start
    (startOptions : option StartOptions) (st : State) :
  let st1 := restart startOptions st in
  engine_calls st1 = engine_calls st ++ [(turn st, EngineStop)]
  /\ timers st1 = timers st ++ [Start startOptions]
  /\ turn st1 = turn st
  /\ (forall s rest,
        timers s = Start startOptions :: rest ->
        step Timeout s = start startOptions (set_timers rest (next_turn s)))
  /\ (forall actions,
        exists later,
          engine_calls (run actions st1) = engine_calls st1 ++ later
          /\ Forall (fun c => turn st < fst c) later).
Proof.
  intros st1. repeat split.
  - intros s rest Q. unfold step. simpl. rewrite Q. reflexivity.
  - intros actions. apply (run_engine_calls actions st1).
Qed.

Lemma restart_defers_start_witness :
  let st1 := restart (Some french) (mount None) in
  timers st1 = [Start (Some french)]
  /\ engine_calls st1 = [(0, EngineStart); (0, EngineStop)]
  /\ step Timeout st1
     = start (Some french) (set_timers [] (next_turn st1)).
Proof.
  destruct (@restart_defers_start (Some french) (mount None))
    as (C & T & _ & D & _).
  split; [exact T|]. split; [exact C|]. apply D. exact T.
Defined.

(** C10.  In every state the hook can reach, the engine's start
    notification runs handleStart, which calls the caller's onend callback
    when it is not null and sets the listening flag to true; and in no
    reachable state has a callback been called through the property
    onstart. *)
Theorem start_notification_calls_onend
    (options : option SpeechRecognitionOptions) (actions : list Action)
    (random : Draws) (event : SpeechRecognitionEvent) :
  let st := run actions (mount options) in
  let st' := step (Notify Onstart random event) st in
  isListening st' = true
  /\ invocations st'
     = invocations st
       ++ match onend (initial_options options) with
          | Some h => [{| via := Onend; func := h; arg := event |}]
          | None => []
          end
  /\ Forall (fun i => via i <> Onstart) (invocations st).
Proof.
  intros st st'.
  pose proof (reachable_listeners options actions) as W. fold st in W.
  assert (E : st' = handleStart (initial_options options) event
                      (next_turn st)).
  { unfold st', step, notify. simpl. rewrite W. reflexivity. }
  split; [|split].
  - rewrite E. unfold handleStart.
    destruct (onend (initial_options options)); reflexivity.
  - rewrite E. unfold handleStart.
    destruct (onend (initial_options options)); simpl;
      [reflexivity|rewrite app_nil_r; reflexivity].
  - destruct (mount_recognition options) as [R I].
    apply (@run_invocations (initial_options options)); auto.
    + rewrite R. reflexivity.
    + rewrite mount_invocations. constructor.
Qed.

(* ================================================================== *)
(** ** The transcript ledger *)

(** What a final result does to the ledger.  After any number of interim
    results the ledger is what it was; the final result that follows
    appends one entry for each run React makes of the updater, each with
    the event's confidence and text, and leaves the live transcript
    empty.  When React runs the updater once, that is one entry. *)
Theorem final_result_appends_an_entry_per_run
    (o : Options) (st : State)
    (interims : list (Draws * SpeechRecognitionEvent))
    (random : Draws) (final : SpeechRecognitionEvent)
    (c : float) (text : string) :
  SpeechRecognition.listeners (recognition st) Onresult = HandleResult o ->
  Forall (fun p => is_interim (snd p) = true) interims ->
  reading final = Some (true, c, text) ->
  let before := run (result_notifications interims) st in
  let after := step (Notify Onresult random final) before in
  transcripts before = transcripts st
  /\ transcripts after = transcripts st ++ entries c text random
  /\ List.length (transcripts after)
     = List.length (transcripts st) + S (List.length (discarded random))
  /\ liveTranscript after = "".
Proof.
  intros W F Rd before after.
  destruct (@run_interims o interims st W F) as [T R]. fold before in T, R.
  assert (W' : SpeechRecognition.listeners (recognition before) Onresult
               = HandleResult o) by (rewrite R; exact W).
  destruct (@step_result o random final before _ _ _ W' Rd) as (T' & L & _).
  fold after in T', L. lazy beta iota zeta in T', L. rewrite T in T'.
  repeat split; auto.
  rewrite T'. unfold entries.
  rewrite !length_app, length_map. simpl. lia.
Qed.

Lemma sample_interims_interim :
  Forall (fun p => is_interim (snd p) = true) sample_interims.
Proof. repeat constructor. Defined.

Lemma final_result_appends_an_entry_per_run_witness :
  let before := run (result_notifications sample_interims) (mount None) in
  let after :=
    step (Notify Onresult 255%N (result_event true 0.75 "hello world"))
      before in
  transcripts after
  = transcripts (mount None) ++ entries 0.75 "hello world" 255%N
  /\ liveTranscript after = "".
Proof.
  destruct (@final_result_appends_an_entry_per_run defaults (mount None)
              sample_interims 255%N (result_event true 0.75 "hello world")
              0.75%float "hello world" eq_refl sample_interims_interim
              eq_refl)
    as (_ & T & _ & L).
  split; [exact T|exact L].
Defined.

(** C2, at the input where the code departs from it.  The updater draws
    the id and pushes the entry onto the array it is given, then returns
    a copy.  When React runs it twice before taking what it returns, as
    it does in Strict Mode, both runs push: after a first final result
    handled with one run, interim results and a final result handled
    with two runs, the ledger has gained two entries for that one
    result, with the same text and two ids. *)
Theorem final_result_appended_twice :
  let before :=
    run (result_notifications
           ((once 10, result_event true 0.5 "first") :: sample_interims))
        (mount None) in
  let after :=
    step (Notify Onresult (run_twice 11 12)
            (result_event true 0.75 "second")) before in
  map transcript (transcripts before) = ["first"]
  /\ map transcript (transcripts after) = ["first"; "second"; "second"]
  /\ map id (transcripts after) = ["a"; "b"; "c"]
  /\ liveTranscript after = "".
Proof.
  vm_compute. repeat split; reflexivity.
Qed.

(** C8.  Along a sequence of interim results the ledger never changes,
    and after each of them the live transcript is the text of that, the
    most recent, result. *)
Theorem interim_results_only_move_live_transcript
    (o : Options) (st : State)
    (earlier : list (Draws * SpeechRecognitionEvent))
    (random : Draws) (latest : SpeechRecognitionEvent)
    (c : float) (text : string) :
  SpeechRecognition.listeners (recognition st) Onresult = HandleResult o ->
  Forall (fun p => is_interim (snd p) = true) earlier ->
  reading latest = Some (false, c, text) ->
  let st' :=
    run (result_notifications (earlier ++ [(random, latest)])) st in
  transcripts st' = transcripts st
  /\ List.length (transcripts st') = List.length (transcripts st)
  /\ liveTranscript st' = text.
Proof.
  intros W F Rd st'.
  destruct (@run_interims o earlier st W F) as [T R].
  assert (E : st' = step (Notify Onresult random latest)
                      (run (result_notifications earlier) st)).
  { unfold st', result_notifications, run.
    rewrite map_app, fold_left_app. reflexivity. }
  assert (W' : SpeechRecognition.listeners
                 (recognition (run (result_notifications earlier) st))
                 Onresult = HandleResult o) by (rewrite R; exact W).
  destruct (@step_result o random latest _ _ _ _ W' Rd) as (T' & L & _).
  lazy beta iota zeta in T', L. rewrite <- E in T', L.
  assert (T'' : transcripts st' = transcripts st) by congruence.
  repeat split; auto. rewrite T''. reflexivity.
Qed.

Lemma interim_results_only_move_live_transcript_witness :
  let st' :=
    run (result_notifications
           (sample_interims ++ [(once 0, result_event false 0.75 "hello")]))
        (mount None) in
  transcripts st' = transcripts (mount None)
  /\ liveTranscript st' = "hello".
Proof.
  destruct (@interim_results_only_move_live_transcript defaults (mount None)
              sample_interims 0%N (result_event false 0.75 "hello")
              0.75%float "hello" eq_refl sample_interims_interim eq_refl)
    as (T & _ & L).
  split; [exact T|exact L].
Defined.

(** C9, as the code has it.  Of two consecutive final results, the
    entries the ledger gains are those of the first result followed by
    those of the second, each with the confidence and the text of its own
    event; the id of each is the hexadecimal form of its own draw of
    Math.random, so two ids differ exactly when the integer parts of the
    two scaled draws differ. *)
Theorem two_final_results_keep_values_and_order
    (o : Options) (st : State)
    (r1 r2 : Draws) (e1 e2 : SpeechRecognitionEvent)
    (c1 c2 : float) (t1 t2 : string) :
  SpeechRecognition.listeners (recognition st) Onresult = HandleResult o ->
  reading e1 = Some (true, c1, t1) ->
  reading e2 = Some (true, c2, t2) ->
  let st' := run (result_notifications [(r1, e1); (r2, e2)]) st in
  transcripts st'
  = transcripts st ++ entries c1 t1 r1 ++ entries c2 t2 r2
  /\ (forall a b : N, new_id a <> new_id b <-> a <> b).
Proof.
  intros W R1 R2 st'.
  destruct (@step_result o r1 e1 st _ _ _ W R1) as (T1 & _ & Rc).
  assert (W' : SpeechRecognition.listeners
                 (recognition (step (Notify Onresult r1 e1) st)) Onresult
               = HandleResult o) by (rewrite Rc; exact W).
  destruct (@step_result o r2 e2 _ _ _ _ W' R2) as (T2 & _ & _).
  lazy beta iota zeta in T1, T2. split.
  - unfold st'. simpl. rewrite T2, T1, <- app_assoc. reflexivity.
  - intros a b. unfold new_id. split; intros H E; apply H.
    + subst; reflexivity.
    + apply JSFacts.toString16_inj; exact E.
Qed.

Lemma two_final_results_keep_values_and_order_witness :
  let st' :=
    run (result_notifications
           [(once 10, result_event true 0.5 "first");
            (once 11, result_event true 0.25 "second")])
        (mount None) in
  transcripts st'
  = transcripts (mount None)
    ++ entries 0.5 "first" 10%N ++ entries 0.25 "second" 11%N.
Proof.
  exact (proj1 (@two_final_results_keep_values_and_order defaults
                  (mount None) 10%N 11%N (result_event true 0.5 "first")
                  (result_event true 0.25 "second")
                  0.5%float 0.25%float "first" "second"
                  eq_refl eq_refl eq_refl)).
Defined.

(** C9, as stated, fails: when Math.random gives the same integer part
    twice, two consecutive final results get the same id. *)
Lemma two_final_results_can_share_an_id :
  let st :=
    run (result_notifications
           [(once 77, result_event true 0.5 "first");
            (once 77, result_event true 0.25 "second")])
        (mount None) in
  map id (transcripts st) = ["4d"; "4d"]
  /\ ~ NoDup (map id (transcripts st)).
Proof.
  assert (E : map id
                 (transcripts
                    (run (result_notifications
                            [(once 77, result_event true 0.5 "first");
                             (once 77, result_event true 0.25 "second")])
                       (mount None))) = ["4d"; "4d"])
    by (vm_compute; reflexivity).
  cbv zeta. rewrite E. split; [reflexivity|].
  intros H. inversion H as [|x l N _]; subst. apply N. left. reflexivity.
Qed.

(* ================================================================== *)
(** ** The pattern match *)

(** What the pattern-match step stores depends on the state only through
    the lastIndex of the pattern. *)
Lemma scan_match (R : JS.RegExp) (text : string) (st : State) :
  option_map match_ (scan R text st)
  = match JS.matchAll text R (lastIndex st (JS.rx_object R)) with
    | None => None
    | Some all =>
        let color := JS.toLowerCase (or_else (JS.pop all) "") in
        Some (if fst (JS.test R color (lastIndex st (JS.rx_object R)))
              then Some color else None)
    end.
Proof.
  unfold scan, matchedColor.
  destruct (JS.matchAll text R (lastIndex st (JS.rx_object R))) as [all|];
    [|reflexivity].
  simpl.
  destruct (JS.test R (JS.toLowerCase (or_else (JS.pop all) ""))
              (lastIndex st (JS.rx_object R))) as [[|] li]; reflexivity.
Qed.

(** With the default pattern fresh (lastIndex 0), the step stores the
    rightmost "hello world" of the text. *)
Lemma scan_twice_fresh (st : State) :
  lastIndex st 0 = 0 ->
  JS.matchAll twice default_regex 0 = Some ["hello world"; "hello world"]
  /\ option_map match_ (scan default_regex twice st)
     = Some (Some "hello world").
Proof.
  intros H. split; [vm_compute; reflexivity|].
  rewrite scan_match. simpl JS.rx_object. rewrite H.
  vm_compute. reflexivity.
Qed.

(** "goodbye" holds no "hello world": whatever the lastIndex of the
    default pattern, the step stores null. *)
Lemma scan_goodbye (st : State) :
  option_map match_ (scan default_regex "goodbye" st) = Some None.
Proof.
  rewrite scan_match. simpl JS.rx_object.
  generalize (lastIndex st 0). intros n.
  do 9 (destruct n as [|n]; [vm_compute; reflexivity|]).
  reflexivity.
Qed.

(** C3, at the input where the code departs from it.  After a result
    whose text matched, the default pattern's lastIndex is 11.  For the
    next result, "I said hello world twice: hello world", matchAll
    starts at index 11 and still finds the rightmost "hello world", but
    the test of that string also starts at index 11, fails, and null is
    stored although the text holds the pattern twice. *)
Theorem rightmost_match_rejected_after_a_match :
  let heard :=
    step (Notify Onresult 0%N (result_event false 0.5 "hello world"))
      (mount None) in
  let st :=
    step (Notify Onresult 0%N (result_event false 0.5 twice)) heard in
  match_ heard = Some "hello world"
  /\ lastIndex heard 0 = 11
  /\ JS.matchAll twice default_regex 11 = Some ["hello world"]
  /\ JS.test default_regex "hello world" 11 = (false, 0)
  /\ match_ st = None.
Proof.
  vm_compute. repeat split; reflexivity.
Qed.

(** C4, at the input where the code departs from it.  The same text and
    the same pattern, scanned twice in a row: the first scan stores
    "hello world" and leaves the pattern's lastIndex at 11, the second
    stores null. *)
Theorem scan_twice_gives_two_results :
  let first := scan default_regex "hello world" (mount None) in
  let second :=
    match first with
    | Some st => scan default_regex "hello world" st
    | None => None
    end in
  option_map match_ first = Some (Some "hello world")
  /\ option_map (fun st => lastIndex st 0) first = Some 11
  /\ option_map match_ second = Some None.
Proof.
  vm_compute. repeat split; reflexivity.
Qed.

(* ================================================================== *)
(** ** Overrides *)

(** start(overrides) replaces [_options] by the spread of the overrides
    over the previous value, all properties at once. *)
Lemma start_merges_overrides (so : StartOptions) (st : State) :
  _options (start (Some so) st) = merge (_options st) so.
Proof.
  unfold start. simpl. destruct (isListening st); reflexivity.
Qed.

(** Whatever happens after mounting, the engine object keeps the fields
    and the listeners the first effect gave it. *)
Lemma engine_keeps_initial_configuration
    (options : option SpeechRecognitionOptions) (actions : list Action) :
  recognition (run actions (mount options)) = recognition (mount options).
Proof.
  destruct (mount_recognition options) as [_ I].
  exact (proj1 (@run_recognition actions (mount options) I)).
Qed.

(** C7, at the input where the code departs from it.  A hook mounted
    without starting, then start(overrides): the overrides are merged
    into [_options], and the engine's start is called while every
    configuration field of the engine still has the value of the first
    effect; the render that follows does not change that, nor does a
    later restart(overrides) with its deferred start. *)
Theorem overrides_do_not_reach_the_engine :
  let st := step Render (step (CallStart (Some french))
                           (mount (Some idle_on_load))) in
  let again := step Timeout (step (CallRestart (Some french)) st) in
  (lang (_options st), continuous (_options st),
   interimResults (_options st), maxAlternatives (_options st))
  = ("fr-FR", false, false, 3%N)
  /\ engine_calls st = [(1, EngineStart)]
  /\ (SpeechRecognition.lang (recognition st),
      SpeechRecognition.continuous (recognition st),
      SpeechRecognition.interimResults (recognition st),
      SpeechRecognition.maxAlternatives (recognition st))
     = ("en-US", true, true, 1%N)
  /\ SpeechRecognition.grammars (recognition st)
     = [(grammar defaults, 1%N)]
  /\ engine_calls again
     = [(1, EngineStart); (3, EngineStop); (4, EngineStart)]
  /\ (SpeechRecognition.lang (recognition again),
      SpeechRecognition.continuous (recognition again),
      SpeechRecognition.interimResults (recognition again),
      SpeechRecognition.maxAlternatives (recognition again))
     = ("en-US", true, true, 1%N).
Proof.
  vm_compute. repeat split; reflexivity.
Qed.

(* ================================================================== *)
(** ** The whole session, task by task *)

Arguments handleResult : simpl never.

Lemma handleResult_malformed (o : Options) (random : Draws)
    (event : SpeechRecognitionEvent) (st : State) :
  reading event = None -> handleResult o random event st = TypeError st.
Proof.
  unfold reading, handleResult.
  destruct (item event) as [result|]; [|reflexivity].
  destruct (res_alternatives result); [reflexivity|discriminate].
Qed.

(** One task, seen from the ledger, the live transcript and the
    listening flag. *)
Lemma step_view (o : Options) (a : Action) (st : State) :
  SpeechRecognition.listeners (recognition st) = wire o ->
  isInitialized st = true ->
  transcripts (step a st) = transcripts st ++ entry_of a
  /\ liveTranscript (step a st) = live_after (liveTranscript st) a
  /\ isListening (step a st) = listening_after (isListening st) a.
Proof.
  intros W I.
  destruct a as [slot random event|so|so| | | | ]; unfold step.
  - unfold notify. simpl. rewrite W.
    destruct slot; simpl; rewrite ?app_nil_r;
      try match goal with
        | |- context [invoke ?s ?f _ _] => destruct f; simpl; auto
        end;
      try solve [destruct (continuous o); simpl; auto].
    destruct (reading event) as [[[final c] text]|] eqn:Rd.
    + destruct (@handleResult_ledger o random event (next_turn st)
                  _ _ _ Rd) as [T L].
      destruct (handleResult_engine o random event (next_turn st))
        as (_ & _ & Li & _).
      rewrite T, L, Li. destruct final; simpl;
        rewrite ?app_nil_r; auto.
    + rewrite (@handleResult_malformed o random event _ Rd). simpl.
      rewrite app_nil_r. auto.
  - unfold start. destruct so; simpl; destruct (isListening st) eqn:L;
      simpl; rewrite ?app_nil_r; auto.
  - simpl. rewrite app_nil_r. auto.
  - simpl. rewrite app_nil_r. auto.
  - simpl. rewrite app_nil_r. auto.
  - simpl. destruct (timers st) as [|[|so] rest]; simpl;
      rewrite ?app_nil_r; auto.
    unfold start. destruct so; simpl; destruct (isListening st) eqn:L;
      simpl; rewrite ?app_nil_r; auto.
  - unfold useEffect. simpl. rewrite I. simpl. rewrite app_nil_r. auto.
Qed.

Lemma run_view (o : Options) (actions : list Action) :
  forall st,
    SpeechRecognition.listeners (recognition st) = wire o ->
    isInitialized st = true ->
    transcripts (run actions st)
    = transcripts st ++ flat_map entry_of actions
    /\ liveTranscript (run actions st)
       = fold_left live_after actions (liveTranscript st)
    /\ isListening (run actions st)
       = fold_left listening_after actions (isListening st).
Proof.
  induction actions as [|a actions IH]; intros st W I; simpl.
  - rewrite app_nil_r. auto.
  - destruct (@step_view o a st W I) as (T & L & Li).
    destruct (step_recognition a st I) as [R I'].
    destruct (IH (step a st)) as (T' & L' & Li');
      [rewrite R; exact W|exact I'|].
    rewrite T', L', Li', T, L, Li, app_assoc. auto.
Qed.

Lemma mount_view (options : option SpeechRecognitionOptions) :
  transcripts (mount options) = []
  /\ liveTranscript (mount options) = ""
  /\ isListening (mount options) = false
  /\ match_ (mount options) = None
  /\ timers (mount options) = []
  /\ _options (mount options) = initial_options options.
Proof.
  unfold mount, useEffect, initializeSpeechRecognition. simpl.
  destruct (startOnLoad (initial_options options)); simpl; auto 10.
Qed.

(** X1.  Whatever the hook goes through after mounting (notifications of
    any kind, calls of start, restart, stop and abort, timers, renders,
    malformed events, a pattern that makes handleResult throw), the
    ledger holds, in the order of arrival, the entries of the result
    notifications whose result at resultIndex was final, and nothing
    else: for each of them one entry for each run React has made of the
    updater, with the confidence and text of that result and the id of
    that run's draw.  No entry is ever removed, changed or moved, and
    nothing but a final result adds one. *)
Theorem ledger_is_the_final_results
    (options : option SpeechRecognitionOptions) (actions : list Action) :
  transcripts (run actions (mount options)) = flat_map entry_of actions.
Proof.
  destruct (mount_recognition options) as [R I].
  destruct (@run_view (initial_options options) actions (mount options))
    as (T & _); [rewrite R; reflexivity|exact I|].
  rewrite T. destruct (mount_view options) as (-> & _). reflexivity.
Qed.

(** X2.  After any sequence of tasks the live transcript is the text of
    the last well-formed result if that result was interim, and empty if
    it was final or if there has been none; no other task touches it. *)
Theorem live_transcript_follows_last_result
    (options : option SpeechRecognitionOptions) (actions : list Action) :
  liveTranscript (run actions (mount options))
  = fold_left live_after actions "".
Proof.
  destruct (mount_recognition options) as [R I].
  destruct (@run_view (initial_options options) actions (mount options))
    as (_ & L & _); [rewrite R; reflexivity|exact I|].
  rewrite L. destruct (mount_view options) as (_ & -> & _). reflexivity.
Qed.

(** X3.  The listening flag is set by the engine's start notification and
    cleared by its end notification, and by nothing else: calling start,
    stop, abort or restart, a timer or a render leaves it as it is. *)
Theorem listening_flag_follows_notifications
    (options : option SpeechRecognitionOptions) (actions : list Action) :
  isListening (run actions (mount options))
  = fold_left listening_after actions false.
Proof.
  destruct (mount_recognition options) as [R I].
  destruct (@run_view (initial_options options) actions (mount options))
    as (_ & _ & Li); [rewrite R; reflexivity|exact I|].
  rewrite Li. destruct (mount_view options) as (_ & _ & -> & _).
  reflexivity.
Qed.

(* ================================================================== *)
(** ** Result events that go wrong, and the result callback *)

Lemma scan_not_global (R : JS.RegExp) (text : string) (st : State) :
  JS.global R = false -> scan R text st = None.
Proof.
  intros G. unfold scan, matchedColor, JS.matchAll. rewrite G. reflexivity.
Qed.

Lemma scan_global (R : JS.RegExp) (text : string) (st : State) :
  JS.global R = true ->
  exists st',
    scan R text st = Some st'
    /\ transcripts st' = transcripts st
    /\ liveTranscript st' = liveTranscript st
    /\ invocations st' = invocations st
    /\ engine_calls st' = engine_calls st
    /\ timers st' = timers st
    /\ turn st' = turn st.
Proof.
  intros G. unfold scan, matchedColor, JS.matchAll. rewrite G.
  match goal with
  | |- context [JS.test ?R ?c ?n] => destruct (JS.test R c n) as [[|] li]
  end; eexists; split; try reflexivity; simpl; auto 10.
Qed.

Lemma handleResult_read (o : Options) (random : Draws)
    (event : SpeechRecognitionEvent) (st : State)
    (final : bool) (c : float) (text : string) :
  reading event = Some (final, c, text) ->
  handleResult o random event st
  = let st1 :=
      if final then
        setLiveTranscript ""
          (setTranscripts (run_updater (updater c final text) random) st)
      else setLiveTranscript text st in
    match scan (regex o) text st1 with
    | None => TypeError st1
    | Some st2 => Normal (invoke Onresult (onresult o) event st2)
    end.
Proof.
  unfold reading, handleResult.
  destruct (item event) as [result|]; [|discriminate].
  destruct (res_alternatives result) as [|alt alts]; [discriminate|].
  intros H. injection H as <- <- <-. reflexivity.
Qed.

(** X4.  A result notification whose event points outside its list of
    results, or at a result with no alternative, makes handleResult throw
    before it has changed anything: ledger, live transcript, match,
    pattern state and callbacks are as before, and the caller's onresult
    callback is not called. *)
Theorem malformed_result_changes_nothing
    (o : Options) (random : Draws) (event : SpeechRecognitionEvent)
    (st : State) :
  SpeechRecognition.listeners (recognition st) Onresult = HandleResult o ->
  reading event = None ->
  notify Onresult random event st = TypeError st
  /\ step (Notify Onresult random event) st = next_turn st.
Proof.
  intros W Rd. unfold step, notify. simpl. rewrite W.
  rewrite !(@handleResult_malformed o random event _ Rd). auto.
Qed.

Lemma malformed_result_changes_nothing_witness :
  notify Onresult 0%N plain_event (mount None) = TypeError (mount None)
  /\ step (Notify Onresult 0%N plain_event) (mount None)
     = next_turn (mount None).
Proof.
  exact (@malformed_result_changes_nothing defaults 0%N plain_event
           (mount None) eq_refl eq_refl).
Defined.

(** X5.  With a pattern that lacks the g flag, every well-formed result
    notification throws at matchAll: the ledger and the live transcript
    have been updated by then, but the match is left as it was, the
    pattern's lastIndex is untouched and the caller's onresult callback
    is not called. *)
Theorem pattern_without_g_flag_throws
    (o : Options) (random : Draws) (event : SpeechRecognitionEvent)
    (st : State) (final : bool) (c : float) (text : string) :
  SpeechRecognition.listeners (recognition st) Onresult = HandleResult o ->
  JS.global (regex o) = false ->
  reading event = Some (final, c, text) ->
  exists st',
    notify Onresult random event st = TypeError st'
    /\ match_ st' = match_ st
    /\ invocations st' = invocations st
    /\ (forall object, lastIndex st' object = lastIndex st object)
    /\ transcripts st' = transcripts st ++ entry_of (Notify Onresult random event)
    /\ liveTranscript st' = (if final then "" else text).
Proof.
  intros W G Rd. unfold notify. rewrite W.
  rewrite (@handleResult_read o random event st _ _ _ Rd). cbv zeta.
  rewrite scan_not_global by exact G.
  eexists. split; [reflexivity|]. simpl. rewrite Rd.
  destruct final; simpl; rewrite ?run_updater_entries, ?app_nil_r;
    auto 10.
Qed.

Lemma pattern_without_g_flag_throws_witness :
  exists st',
    notify Onresult 5%N (result_event true 0.5 "hello")
      (mount (Some (with_regex (not_global 1 "hello") (Some 7))))
    = TypeError st'
    /\ match_ st'
       = match_ (mount (Some (with_regex (not_global 1 "hello") (Some 7))))
    /\ invocations st'
       = invocations
           (mount (Some (with_regex (not_global 1 "hello") (Some 7))))
    /\ (forall object,
          lastIndex st' object
          = lastIndex
              (mount (Some (with_regex (not_global 1 "hello") (Some 7))))
              object)
    /\ transcripts st'
       = transcripts
           (mount (Some (with_regex (not_global 1 "hello") (Some 7))))
         ++ entry_of (Notify Onresult 5%N (result_event true 0.5 "hello"))
    /\ liveTranscript st' = (if true then "" else "hello").
Proof.
  exact (@pattern_without_g_flag_throws
           (initial_options
              (Some (with_regex (not_global 1 "hello") (Some 7))))
           5%N (result_event true 0.5 "hello")
           (mount (Some (with_regex (not_global 1 "hello") (Some 7))))
           true 0.5%float "hello" eq_refl eq_refl eq_refl).
Defined.

(** X6.  With a global pattern, a well-formed result notification
    returns normally and calls the caller's onresult callback, when there
    is one, exactly once and with the event it received; it calls nothing
    on the engine and queues no timer. *)
Theorem result_callback_called_once
    (o : Options) (random : Draws) (event : SpeechRecognitionEvent)
    (st : State) (final : bool) (c : float) (text : string) :
  SpeechRecognition.listeners (recognition st) Onresult = HandleResult o ->
  JS.global (regex o) = true ->
  reading event = Some (final, c, text) ->
  exists st',
    notify Onresult random event st = Normal st'
    /\ invocations st'
       = invocations st ++ called Onresult (onresult o) event
    /\ engine_calls st' = engine_calls st
    /\ timers st' = timers st.
Proof.
  intros W G Rd. unfold notify. rewrite W.
  rewrite (@handleResult_read o random event st _ _ _ Rd). cbv zeta.
  match goal with
  | |- context [scan ?R ?t ?s] =>
      destruct (@scan_global R t s G) as (st2 & -> & _ & _ & I & E & T & _)
  end.
  eexists. split; [reflexivity|].
  destruct (onresult o); destruct final; simpl; simpl in I, E, T;
    rewrite ?I, ?E, ?T, ?app_nil_r; auto.
Qed.

Lemma result_callback_called_once_witness :
  exists st',
    notify Onresult 5%N (result_event false 0.5 "hello")
      (mount (Some (with_regex default_regex (Some 7))))
    = Normal st'
    /\ invocations st'
       = invocations (mount (Some (with_regex default_regex (Some 7))))
         ++ called Onresult
              (onresult
                 (initial_options
                    (Some (with_regex default_regex (Some 7)))))
              (result_event false 0.5 "hello")
    /\ engine_calls st'
       = engine_calls (mount (Some (with_regex default_regex (Some 7))))
    /\ timers st'
       = timers (mount (Some (with_regex default_regex (Some 7)))).
Proof.
  exact (@result_callback_called_once
           (initial_options (Some (with_regex default_regex (Some 7))))
           5%N (result_event false 0.5 "hello")
           (mount (Some (with_regex default_regex (Some 7))))
           false 0.5%float "hello" eq_refl eq_refl eq_refl).
Defined.

(* ================================================================== *)
(** ** Initialization and the installed listeners *)

(** X7.  The first effect copies the initial options to the engine (one
    grammar of weight 1, continuous, interimResults, lang,
    maxAlternatives), installs the listeners, and calls the engine's
    start exactly when startOnLoad is true.  It is the only
    initialization there is: after any sequence of tasks the engine
    object is still that one, and a render changes nothing in the state
    of the hook. *)
Theorem engine_is_initialized_once
    (options : option SpeechRecognitionOptions) (actions : list Action) :
  let o := initial_options options in
  let st := run actions (mount options) in
  recognition st
  = {| SpeechRecognition.grammars := [(grammar o, 1%N)];
       SpeechRecognition.continuous := continuous o;
       SpeechRecognition.interimResults := interimResults o;
       SpeechRecognition.lang := lang o;
       SpeechRecognition.maxAlternatives := maxAlternatives o;
       SpeechRecognition.listeners := wire o |}
  /\ engine_calls (mount options)
     = (if startOnLoad o then [(0, EngineStart)] else [])
  /\ step Render st = next_turn st.
Proof.
  intros o st.
  destruct (mount_recognition options) as [R I].
  destruct (@run_recognition actions (mount options) I) as [R' I'].
  fold st in R', I'. split; [|split].
  - rewrite R', R. reflexivity.
  - unfold mount, useEffect, initializeSpeechRecognition. simpl. fold o.
    destruct (startOnLoad o); reflexivity.
  - unfold step, useEffect. simpl. rewrite I'. reflexivity.
Qed.

(** X8.  The three handlers the engine calls are those of the first
    render for the whole life of the hook: whatever overrides start and
    restart have merged into [_options] since, the end, start and result
    notifications run with the initial options.  So the restart after an
    end notification is decided by the initial [continuous] alone. *)
Theorem handlers_keep_the_first_options
    (options : option SpeechRecognitionOptions) (actions : list Action)
    (random : Draws) (event : SpeechRecognitionEvent) :
  let o := initial_options options in
  let st := run actions (mount options) in
  step (Notify Onend random event) st = handleEnd o event (next_turn st)
  /\ step (Notify Onstart random event) st
     = handleStart o event (next_turn st)
  /\ step (Notify Onresult random event) st
     = state_of (handleResult o random event (next_turn st))
  /\ timers (step (Notify Onend random event) st)
     = timers st ++ (if continuous o then [RecognitionStart] else []).
Proof.
  intros o st.
  pose proof (reachable_listeners options actions) as W.
  fold st o in W.
  assert (E : step (Notify Onend random event) st
              = handleEnd o event (next_turn st)).
  { unfold step, notify. simpl. rewrite W. reflexivity. }
  split; [exact E|]. split; [|split].
  - unfold step, notify. simpl. rewrite W. reflexivity.
  - unfold step, notify. simpl. rewrite W. reflexivity.
  - rewrite E. unfold handleEnd.
    destruct (continuous o), (onend o); simpl;
      rewrite ?app_nil_r; reflexivity.
Qed.

(** X9.  A notification in one of the eight other slots (audio, sound and
    speech start and end, error, nomatch) calls the caller's callback of
    the same name, given at mount, once with the event when there is one,
    and does nothing else: no engine call, no timer, no change of the
    ledger, the live transcript, the match or the listening flag. *)
Theorem other_notifications_are_forwarded
    (options : option SpeechRecognitionOptions) (actions : list Action)
    (slot : Slot) (random : Draws) (event : SpeechRecognitionEvent) :
  is_passthrough slot = true ->
  let st := run actions (mount options) in
  let st' := step (Notify slot random event) st in
  st' = invoke slot (callback_of (initial_options options) slot) event
          (next_turn st)
  /\ invocations st'
     = invocations st
       ++ called slot (callback_of (initial_options options) slot) event
  /\ engine_calls st' = engine_calls st
  /\ timers st' = timers st
  /\ transcripts st' = transcripts st
  /\ liveTranscript st' = liveTranscript st
  /\ match_ st' = match_ st
  /\ isListening st' = isListening st.
Proof.
  intros P st st'.
  pose proof (reachable_listeners options actions) as W. fold st in W.
  assert (E : st' = invoke slot
                      (callback_of (initial_options options) slot) event
                      (next_turn st)).
  { unfold st', step, notify. simpl. rewrite W.
    destruct slot; try discriminate; reflexivity. }
  split; [exact E|]. rewrite E.
  destruct (callback_of (initial_options options) slot); simpl;
    rewrite ?app_nil_r; auto 10.
Qed.

Lemma other_notifications_are_forwarded_witness :
  let st := run [CallStop] (mount (Some not_continuous)) in
  let st' := step (Notify Onerror 0%N plain_event) st in
  st' = invoke Onerror
          (callback_of (initial_options (Some not_continuous)) Onerror)
          plain_event (next_turn st)
  /\ invocations st'
     = invocations st
       ++ called Onerror
            (callback_of (initial_options (Some not_continuous)) Onerror)
            plain_event
  /\ engine_calls st' = engine_calls st
  /\ timers st' = timers st
  /\ transcripts st' = transcripts st
  /\ liveTranscript st' = liveTranscript st
  /\ match_ st' = match_ st
  /\ isListening st' = isListening st.
Proof.
  exact (@other_notifications_are_forwarded (Some not_continuous)
           [CallStop] Onerror 0%N plain_event eq_refl).
Defined.

(* ================================================================== *)
(** ** Merging overrides *)

Lemma or_else_or_first {A} (second first : option A) (d : A) :
  or_else second (or_else first d) = or_else (or_first second first) d.
Proof. destruct second, first; reflexivity. Qed.

Lemma or_else_twice {A} (o : option A) (d : A) :
  or_else o (or_else o d) = or_else o d.
Proof. destruct o; reflexivity. Qed.

(** X10.  The merge of overrides into the options: empty overrides change
    nothing; merging the same overrides twice is merging them once;
    merging [first] and then [second] is merging once the overrides in
    which each property of [second] wins over that of [first];
    startOnLoad and the eleven callbacks are never changed.  Two calls of
    start merge their overrides in that way, listening or not. *)
Theorem overrides_merge_in_order
    (prev : Options) (first second : StartOptions) (st : State) :
  merge prev no_overrides = prev
  /\ merge (merge prev first) first = merge prev first
  /\ merge (merge prev first) second
     = merge prev (then_overrides first second)
  /\ startOnLoad (merge prev first) = startOnLoad prev
  /\ (forall slot,
        callback_of (merge prev first) slot = callback_of prev slot)
  /\ _options (start (Some second) (start (Some first) st))
     = merge (_options st) (then_overrides first second).
Proof.
  assert (M : forall p, merge (merge p first) second
                        = merge p (then_overrides first second)).
  { intros p. unfold merge, then_overrides. simpl.
    rewrite !or_else_or_first. reflexivity. }
  split; [destruct prev; reflexivity|].
  split; [unfold merge; simpl; rewrite !or_else_twice; reflexivity|].
  split; [apply M|].
  split; [reflexivity|].
  split; [intros slot; destruct slot; reflexivity|].
  rewrite <- M. unfold start.
  destruct (isListening st) eqn:L; simpl; rewrite L; simpl;
    rewrite ?L; reflexivity.
Qed.

(* ================================================================== *)
(** ** How the control calls compose *)

Ltac open_tasks :=
  unfold run, step, notify, start, restart, stop, abort, handleEnd,
    run_task, setTimeout; simpl.

(** X11.  The guard of start reads a flag that only the engine's start
    notification sets: while that notification has not arrived, a second
    call of start is not absorbed and the engine's start is called
    again. *)
Theorem start_twice_before_the_notification
    (first second : option StartOptions) (st : State) :
  isListening st = false ->
  engine_calls (run [CallStart first; CallStart second] st)
  = engine_calls st
    ++ [(S (turn st), EngineStart); (S (S (turn st)), EngineStart)].
Proof.
  intros L. destruct st; simpl in L; subst.
  destruct first, second; open_tasks; rewrite <- app_assoc; reflexivity.
Qed.

Lemma start_twice_before_the_notification_witness :
  engine_calls (run [CallStart None; CallStart None]
                  (mount (Some idle_on_load)))
  = engine_calls (mount (Some idle_on_load))
    ++ [(S (turn (mount (Some idle_on_load))), EngineStart);
        (S (S (turn (mount (Some idle_on_load)))), EngineStart)].
Proof.
  exact (@start_twice_before_the_notification None None
           (mount (Some idle_on_load)) eq_refl).
Defined.

(** X12.  stop and abort call the engine and leave the listening flag
    alone, so a start called after them, before the engine's end
    notification, is absorbed: the engine receives the stop (or abort)
    and no start. *)
Theorem start_right_after_stop_is_absorbed
    (startOptions : option StartOptions) (st : State) :
  isListening st = true ->
  engine_calls (run [CallStop; CallStart startOptions] st)
  = engine_calls st ++ [(S (turn st), EngineStop)]
  /\ engine_calls (run [CallAbort; CallStart startOptions] st)
     = engine_calls st ++ [(S (turn st), EngineAbort)]
  /\ isListening (run [CallStop; CallStart startOptions] st) = true
  /\ isListening (run [CallAbort; CallStart startOptions] st) = true.
Proof.
  intros L. destruct st; simpl in L; subst.
  destruct startOptions; open_tasks; auto.
Qed.

Lemma start_right_after_stop_is_absorbed_witness :
  let st := step (Notify Onstart 0%N plain_event) (mount None) in
  engine_calls (run [CallStop; CallStart None] st)
  = engine_calls st ++ [(S (turn st), EngineStop)]
  /\ engine_calls (run [CallAbort; CallStart None] st)
     = engine_calls st ++ [(S (turn st), EngineAbort)]
  /\ isListening (run [CallStop; CallStart None] st) = true
  /\ isListening (run [CallAbort; CallStart None] st) = true.
Proof.
  exact (@start_right_after_stop_is_absorbed None
           (step (Notify Onstart 0%N plain_event) (mount None)) eq_refl).
Defined.

(** X13.  restart while listening, in continuous mode, with no other
    timer pending.  If the engine's end notification arrives before the
    deferred start runs, the engine's start is called twice: once by the
    deferred start(overrides), once by the restart handleEnd queued.  If
    the deferred start runs first it is absorbed, the flag being still
    set, and the only start is the one handleEnd queues. *)
Theorem restart_in_continuous_mode
    (o : Options) (startOptions : option StartOptions)
    (random : Draws) (event : SpeechRecognitionEvent) (st : State) :
  SpeechRecognition.listeners (recognition st) Onend = HandleEnd o ->
  continuous o = true ->
  isListening st = true ->
  timers st = [] ->
  engine_calls
    (run [CallRestart startOptions; Notify Onend random event;
          Timeout; Timeout] st)
  = engine_calls st
    ++ [(1 + turn st, EngineStop); (2 + turn st, EngineStop);
        (3 + turn st, EngineStart); (4 + turn st, EngineStart)]
  /\ engine_calls
       (run [CallRestart startOptions; Timeout;
             Notify Onend random event; Timeout] st)
     = engine_calls st
       ++ [(1 + turn st, EngineStop); (3 + turn st, EngineStop);
           (4 + turn st, EngineStart)].
Proof.
  intros W C L Q. destruct st; simpl in W, L, Q; subst.
  split.
  - open_tasks. rewrite W. simpl. rewrite C.
    destruct (onend o), startOptions; simpl;
      rewrite <- !app_assoc; reflexivity.
  - destruct startOptions; open_tasks; rewrite W; simpl; rewrite C;
      destruct (onend o); simpl; rewrite <- !app_assoc; reflexivity.
Qed.

Lemma restart_in_continuous_mode_witness :
  let st := step (Notify Onstart 0%N plain_event) (mount None) in
  engine_calls
    (run [CallRestart None; Notify Onend 0%N plain_event;
          Timeout; Timeout] st)
  = engine_calls st
    ++ [(1 + turn st, EngineStop); (2 + turn st, EngineStop);
        (3 + turn st, EngineStart); (4 + turn st, EngineStart)]
  /\ engine_calls
       (run [CallRestart None; Timeout;
             Notify Onend 0%N plain_event; Timeout] st)
     = engine_calls st
       ++ [(1 + turn st, EngineStop); (3 + turn st, EngineStop);
           (4 + turn st, EngineStart)].
Proof.
  exact (@restart_in_continuous_mode defaults None 0%N plain_event
           (step (Notify Onstart 0%N plain_event) (mount None))
           eq_refl eq_refl eq_refl eq_refl).
Defined.

(** X14.  restart while listening, continuous mode off, with no other
    timer pending.  If the end notification arrives before the deferred
    start runs, the engine is started again, once.  If the deferred start
    runs first it is absorbed and nothing starts the engine afterwards:
    the engine has been stopped twice and the timer queue is empty. *)
Theorem restart_without_continuous_mode
    (o : Options) (startOptions : option StartOptions)
    (random : Draws) (event : SpeechRecognitionEvent) (st : State) :
  SpeechRecognition.listeners (recognition st) Onend = HandleEnd o ->
  continuous o = false ->
  isListening st = true ->
  timers st = [] ->
  engine_calls
    (run [CallRestart startOptions; Notify Onend random event; Timeout] st)
  = engine_calls st
    ++ [(1 + turn st, EngineStop); (2 + turn st, EngineStop);
        (3 + turn st, EngineStart)]
  /\ engine_calls
       (run [CallRestart startOptions; Timeout;
             Notify Onend random event] st)
     = engine_calls st
       ++ [(1 + turn st, EngineStop); (3 + turn st, EngineStop)]
  /\ timers
       (run [CallRestart startOptions; Timeout;
             Notify Onend random event] st) = []
  /\ isListening
       (run [CallRestart startOptions; Timeout;
             Notify Onend random event] st) = false.
Proof.
  intros W C L Q. destruct st; simpl in W, L, Q; subst.
  split; [|split; [|split]];
    destruct startOptions; open_tasks; rewrite W; simpl; rewrite ?C;
      destruct (onend o); simpl; rewrite <- ?app_assoc; reflexivity.
Qed.

Lemma restart_without_continuous_mode_witness :
  let st :=
    step (Notify Onstart 0%N plain_event) (mount (Some not_continuous)) in
  engine_calls
    (run [CallRestart None; Notify Onend 0%N plain_event; Timeout] st)
  = engine_calls st
    ++ [(1 + turn st, EngineStop); (2 + turn st, EngineStop);
        (3 + turn st, EngineStart)]
  /\ engine_calls
       (run [CallRestart None; Timeout; Notify Onend 0%N plain_event] st)
     = engine_calls st
       ++ [(1 + turn st, EngineStop); (3 + turn st, EngineStop)]
  /\ timers
       (run [CallRestart None; Timeout; Notify Onend 0%N plain_event] st)
     = []
  /\ isListening
       (run [CallRestart None; Timeout; Notify Onend 0%N plain_event] st)
     = false.
Proof.
  exact (@restart_without_continuous_mode
           (initial_options (Some not_continuous)) None 0%N plain_event
           (step (Notify Onstart 0%N plain_event)
              (mount (Some not_continuous)))
           eq_refl eq_refl eq_refl eq_refl).
Defined.

(** X15.  In continuous mode stop and abort do not end the session: the
    end notification that follows them runs handleEnd like any other, so
    the engine is stopped once more and started again by the timer. *)
Theorem stop_does_not_end_a_continuous_session
    (o : Options) (random : Draws) (event : SpeechRecognitionEvent)
    (st : State) :
  SpeechRecognition.listeners (recognition st) Onend = HandleEnd o ->
  continuous o = true ->
  timers st = [] ->
  engine_calls (run [CallStop; Notify Onend random event; Timeout] st)
  = engine_calls st
    ++ [(1 + turn st, EngineStop); (2 + turn st, EngineStop);
        (3 + turn st, EngineStart)]
  /\ engine_calls (run [CallAbort; Notify Onend random event; Timeout] st)
     = engine_calls st
       ++ [(1 + turn st, EngineAbort); (2 + turn st, EngineStop);
           (3 + turn st, EngineStart)].
Proof.
  intros W C Q. destruct st; simpl in W, Q; subst.
  split; open_tasks; rewrite W; simpl; rewrite C;
    destruct (onend o); simpl; rewrite <- !app_assoc; reflexivity.
Qed.

Lemma stop_does_not_end_a_continuous_session_witness :
  let st := step (Notify Onstart 0%N plain_event) (mount None) in
  engine_calls (run [CallStop; Notify Onend 0%N plain_event; Timeout] st)
  = engine_calls st
    ++ [(1 + turn st, EngineStop); (2 + turn st, EngineStop);
        (3 + turn st, EngineStart)]
  /\ engine_calls
       (run [CallAbort; Notify Onend 0%N plain_event; Timeout] st)
     = engine_calls st
       ++ [(1 + turn st, EngineAbort); (2 + turn st, EngineStop);
           (3 + turn st, EngineStart)].
Proof.
  exact (@stop_does_not_end_a_continuous_session defaults 0%N plain_event
           (step (Notify Onstart 0%N plain_event) (mount None))
           eq_refl eq_refl eq_refl).
Defined.

(* ================================================================== *)
(** ** Patterns of literal characters *)

Module LiteralFacts.
Import JS.

Lemma lower_idem (c : ascii) : lower (lower c) = lower c.
Proof.
  destruct c as [[] [] [] [] [] [] [] []]; vm_compute; reflexivity.
Qed.

Lemma lower_upper (c : ascii) : lower (upper c) = lower c.
Proof.
  destruct c as [[] [] [] [] [] [] [] []]; vm_compute; reflexivity.
Qed.

Lemma toLowerCase_idem (s : string) :
  toLowerCase (toLowerCase s) = toLowerCase s.
Proof.
  induction s as [|c s IH]; simpl; [reflexivity|].
  rewrite lower_idem, IH. reflexivity.
Qed.

Lemma toLowerCase_length (s : string) :
  String.length (toLowerCase s) = String.length s.
Proof.
  induction s as [|c s IH]; simpl; [reflexivity|]. rewrite IH. reflexivity.
Qed.

Lemma toLowerCase_substring (s : string) :
  forall n m,
    toLowerCase (substring n m s) = substring n m (toLowerCase s).
Proof.
  induction s as [|c s IH]; intros [|n] [|m]; simpl; try reflexivity.
  - rewrite IH. reflexivity.
  - apply IH.
  - apply IH.
Qed.

Lemma substring_length_le (s : string) :
  forall n m, String.length (substring n m s) <= m.
Proof.
  induction s as [|c s IH]; intros [|n] [|m]; simpl; try lia.
  - specialize (IH 0 m). lia.
  - apply IH.
  - apply IH.
Qed.

Lemma substring_length_le_rest (s : string) :
  forall n m, String.length (substring n m s) <= String.length s - n.
Proof.
  induction s as [|c s IH]; intros [|n] [|m]; simpl; try lia.
  - specialize (IH 0 m). lia.
  - apply IH.
  - apply IH.
Qed.

(** A literal pattern only matches where enough characters are left. *)
Lemma literal_at_length (ic : bool) (pattern : string) :
  forall str,
    literal_at ic pattern str = true ->
    String.length pattern <= String.length str.
Proof.
  induction pattern as [|p pattern IH]; intros [|c str]; simpl;
    try lia; try discriminate.
  intros H. apply andb_true_iff in H. destruct H as [_ H].
  apply IH in H. lia.
Qed.

(** A case-sensitive literal pattern that matches a lower-case string is
    itself in lower case. *)
Lemma literal_at_lower (pattern : string) :
  forall str,
    literal_at false pattern str = true ->
    toLowerCase str = str ->
    toLowerCase pattern = pattern.
Proof.
  induction pattern as [|p pattern IH]; intros [|c str]; simpl;
    try reflexivity; try discriminate.
  intros H L. apply andb_true_iff in H. destruct H as [E H].
  apply Ascii.eqb_eq in E. injection L as Lc Ls. subst c.
  rewrite Lc. f_equal. exact (IH str H Ls).
Qed.

(** What the search loop returns for a literal pattern. *)
Lemma exec_loop_literal (R : RegExp) (ic : bool) (pattern str : string) :
  RegExpMatcher R = literal ic pattern ->
  forall tries from i e,
    exec_loop R str from tries = Some (i, e) ->
    e = i + String.length pattern
    /\ literal_at ic pattern (substring i (String.length str - i) str)
       = true.
Proof.
  intros M. induction tries as [|k IH]; simpl; intros from i e H;
    [discriminate|].
  rewrite M in H. unfold literal in H.
  destruct (literal_at ic pattern
              (substring from (String.length str - from) str)) eqn:L.
  - injection H as <- <-. auto.
  - destruct (sticky R); [discriminate|]. exact (IH _ _ _ H).
Qed.

(** The strings matchAll returns are no longer than the pattern. *)
Lemma iterator_lengths (R : RegExp) (ic : bool) (pattern str : string) :
  RegExpMatcher R = literal ic pattern ->
  forall fuel li,
    Forall (fun m => String.length m <= String.length pattern)
      (RegExpStringIterator R str li fuel).
Proof.
  intros M. induction fuel as [|fuel IH]; intros li; simpl; [constructor|].
  destruct (RegExpBuiltinExec R str li) as [[m|] e] eqn:E; [|constructor].
  constructor; [|apply IH].
  unfold RegExpBuiltinExec in E.
  match type of E with
  | context [exec_loop ?R ?s ?f ?t] =>
      destruct (exec_loop R s f t) as [[i e']|] eqn:X; [|discriminate]
  end.
  injection E as <- _. simpl.
  destruct (@exec_loop_literal R ic pattern str M _ _ _ _ X) as [-> _].
  replace (i + String.length pattern - i) with (String.length pattern)
    by lia.
  apply substring_length_le.
Qed.

Lemma pop_Forall {A} (P : A -> Prop) (l : list A) (d : A) :
  P d -> Forall P l -> P (or_else (pop l) d).
Proof.
  intros Pd F. unfold pop.
  induction F as [|x l Px F IH]; simpl; [exact Pd|].
  destruct l as [|y l]; simpl in *; [exact Px|exact IH].
Qed.

(** The string the scan tests is in lower case and no longer than the
    pattern. *)
Lemma color_of_literal (R : RegExp) (ic : bool) (pattern str : string)
    (li fuel : nat) :
  RegExpMatcher R = literal ic pattern ->
  let color :=
    toLowerCase (or_else (pop (RegExpStringIterator R str li fuel)) "") in
  String.length color <= String.length pattern
  /\ toLowerCase color = color.
Proof.
  intros M color. split.
  - unfold color. rewrite toLowerCase_length.
    apply pop_Forall; [simpl; lia|].
    apply (@iterator_lengths R ic pattern str M).
  - apply toLowerCase_idem.
Qed.

(** A literal pattern tested from its own length on a string no longer
    than itself fails, and lastIndex goes back to 0. *)
Lemma test_after_a_hit (object : nat) (ic : bool) (pattern color : string) :
  pattern <> "" ->
  String.length color <= String.length pattern ->
  test (literal_regexp object ic pattern) color (String.length pattern)
  = (false, 0).
Proof.
  intros N L. unfold test, RegExpBuiltinExec. simpl.
  destruct (String.length color + 1 - String.length pattern)
    as [|[|k]] eqn:T; [reflexivity| |lia].
  simpl. unfold literal.
  replace (String.length color - String.length pattern) with 0 by lia.
  rewrite JSFacts.substring_zero.
  destruct pattern; [congruence|reflexivity].
Qed.

(** When the test of such a string succeeds, it has matched at index 0
    and leaves lastIndex at the length of the pattern. *)
Lemma test_hit (object : nat) (ic : bool) (pattern color : string)
    (li li' : nat) :
  pattern <> "" ->
  String.length color <= String.length pattern ->
  test (literal_regexp object ic pattern) color li = (true, li') ->
  li' = String.length pattern
  /\ literal_at ic pattern color = true.
Proof.
  intros N L.
  assert (0 < String.length pattern)
    by (destruct pattern; [congruence|simpl; lia]).
  unfold test, RegExpBuiltinExec. simpl.
  match goal with
  | |- context [exec_loop ?R ?s ?f ?t] =>
      destruct (exec_loop R s f t) as [[i e]|] eqn:X; [|discriminate]
  end.
  intros H'. injection H' as <-.
  destruct (@exec_loop_literal (literal_regexp object ic pattern) ic
              pattern color eq_refl _ _ _ _ X) as [-> A].
  pose proof (literal_at_length _ _ _ A) as B.
  pose proof (substring_length_le_rest color i
                (String.length color - i)) as C.
  assert (i = 0) by lia. subst i. split; [reflexivity|].
  assert (S0 : forall s, substring 0 (String.length s) s = s).
  { induction s as [|c s IH]; simpl; [reflexivity|]. rewrite IH.
    reflexivity. }
  rewrite Nat.sub_0_r, S0 in A. exact A.
Qed.

End LiteralFacts.

(* ================================================================== *)
(** ** The pattern match, in general *)

Lemma literal_at_color (ic : bool) (pattern : string) :
  forall color,
    JS.literal_at ic pattern color = true ->
    JS.toLowerCase color = color ->
    String.length color <= String.length pattern ->
    color = JS.toLowerCase pattern.
Proof.
  induction pattern as [|p pattern IH]; intros [|c color]; simpl;
    try reflexivity; try discriminate; try lia.
  intros H L Len. apply andb_true_iff in H. destruct H as [E H].
  apply Ascii.eqb_eq in E. injection L as Lc Ls.
  f_equal; [|apply IH; auto; lia].
  rewrite <- Lc. destruct ic; simpl in E.
  - rewrite <- (LiteralFacts.lower_upper p), E.
    symmetry. apply LiteralFacts.lower_upper.
  - subst p. reflexivity.
Qed.

(** One scan with a literal pattern: it stores null and leaves lastIndex
    at 0, or stores the pattern in lower case and leaves lastIndex at the
    length of the pattern; from that lastIndex it stores null, whatever
    the text. *)
Lemma scan_literal (object : nat) (ic : bool) (pattern text : string)
    (st : State) :
  pattern <> "" ->
  exists st',
    scan (literal_regexp object ic pattern) text st = Some st'
    /\ ((match_ st' = None /\ lastIndex st' object = 0)
        \/ (match_ st' = Some (JS.toLowerCase pattern)
            /\ lastIndex st' object = String.length pattern
            /\ JS.literal_at ic pattern (JS.toLowerCase pattern) = true))
    /\ (lastIndex st object = String.length pattern -> match_ st' = None).
Proof.
  intros N. unfold scan, matchedColor, JS.matchAll. simpl.
  match goal with
  | |- context [JS.RegExpStringIterator ?R ?s ?l ?f] =>
      destruct (@LiteralFacts.color_of_literal R ic pattern s l f eq_refl)
        as [Len Low];
      set (color := JS.toLowerCase
                      (or_else (JS.pop (JS.RegExpStringIterator R s l f))
                         "")) in *
  end.
  destruct (JS.test (literal_regexp object ic pattern) color
              (lastIndex st object)) as [[|] li] eqn:T.
  - destruct (@LiteralFacts.test_hit object ic pattern color _ _ N Len T)
      as [-> A].
    pose proof (@literal_at_color ic pattern color A Low Len) as C.
    eexists. split; [reflexivity|]. simpl. rewrite Nat.eqb_refl.
    split.
    + right. rewrite <- C. auto.
    + intros Q. rewrite Q in T.
      rewrite (@LiteralFacts.test_after_a_hit object ic pattern color N Len)
        in T. discriminate.
  - eexists. split; [reflexivity|]. simpl. rewrite Nat.eqb_refl.
    split; [|reflexivity]. left. split; [reflexivity|].
    unfold JS.test, JS.RegExpBuiltinExec in T. simpl in T.
    match type of T with
    | context [JS.exec_loop ?R ?s ?f ?t] =>
        destruct (JS.exec_loop R s f t) as [[i e]|]
    end; [discriminate|]. injection T as <-. reflexivity.
Qed.

(** What a well-formed result notification does to the match and the
    pattern, through the scan it runs. *)
Lemma step_result_scan (o : Options) (random : Draws)
    (event : SpeechRecognitionEvent) (st : State)
    (final : bool) (c : float) (text : string) :
  SpeechRecognition.listeners (recognition st) Onresult = HandleResult o ->
  reading event = Some (final, c, text) ->
  JS.global (regex o) = true ->
  exists before after,
    scan (regex o) text before = Some after
    /\ lastIndex before = lastIndex st
    /\ match_ (step (Notify Onresult random event) st) = match_ after
    /\ lastIndex (step (Notify Onresult random event) st) = lastIndex after
    /\ recognition (step (Notify Onresult random event) st)
       = recognition st.
Proof.
  intros W Rd G. unfold step, notify. simpl. rewrite W.
  rewrite (@handleResult_read o random event _ _ _ _ Rd). cbv zeta.
  match goal with
  | |- context [scan ?R ?t ?s] =>
      destruct (@scan_global R t s G) as (after & E & _);
      exists s, after; rewrite E
  end.
  split; [reflexivity|].
  split; [destruct final; reflexivity|].
  assert (R : recognition after = recognition st).
  { revert E. destruct final; open_scan; intros E; inversion E; subst;
      reflexivity. }
  destruct (onresult o); simpl; auto.
Qed.

(** X16.  With a non-empty pattern of literal characters (the default
    "hello world" included), a result notification stores either null or
    the pattern in lower case, and no two consecutive results both store
    a match: the test that accepts a match leaves the pattern's lastIndex
    at the length of the pattern, from where the test of the next result
    fails, whatever its text. *)
Theorem literal_pattern_never_matches_twice_in_a_row
    (o : Options) (object : nat) (ic : bool) (pattern : string)
    (r1 r2 : Draws) (e1 e2 : SpeechRecognitionEvent) (st : State)
    (f1 f2 : bool) (c1 c2 : float) (t1 t2 : string) :
  SpeechRecognition.listeners (recognition st) Onresult = HandleResult o ->
  regex o = literal_regexp object ic pattern ->
  pattern <> "" ->
  reading e1 = Some (f1, c1, t1) ->
  reading e2 = Some (f2, c2, t2) ->
  let st1 := step (Notify Onresult r1 e1) st in
  let st2 := step (Notify Onresult r2 e2) st1 in
  (match_ st1 = None \/ match_ st1 = Some (JS.toLowerCase pattern))
  /\ (match_ st1 <> None -> match_ st2 = None).
Proof.
  intros W Rx N R1 R2 st1 st2.
  assert (G : JS.global (regex o) = true) by (rewrite Rx; reflexivity).
  destruct (@step_result_scan o r1 e1 st _ _ _ W R1 G)
    as (b1 & a1 & S1 & _ & M1 & L1 & Rc1).
  fold st1 in M1, L1, Rc1.
  assert (W1 : SpeechRecognition.listeners (recognition st1) Onresult
               = HandleResult o) by (rewrite Rc1; exact W).
  destruct (@step_result_scan o r2 e2 st1 _ _ _ W1 R2 G)
    as (b2 & a2 & S2 & B2 & M2 & _).
  fold st2 in M2. rewrite Rx in S1, S2.
  destruct (@scan_literal object ic pattern t1 b1 N) as (a1' & E1 & D1 & _).
  destruct (@scan_literal object ic pattern t2 b2 N) as (a2' & E2 & _ & D2).
  rewrite S1 in E1. rewrite S2 in E2.
  injection E1 as <-. injection E2 as <-.
  rewrite M1, M2. split.
  - destruct D1 as [[D _]|[D _]]; auto.
  - intros H. apply D2. rewrite B2, L1.
    destruct D1 as [[D _]|(_ & D & _)]; [contradiction|exact D].
Qed.

Lemma literal_pattern_never_matches_twice_in_a_row_witness :
  let st1 :=
    step (Notify Onresult 0%N (result_event false 0.5 "Hello World"))
      (mount None) in
  let st2 :=
    step (Notify Onresult 0%N (result_event false 0.5 "hello world!"))
      st1 in
  (match_ st1 = None \/ match_ st1 = Some (JS.toLowerCase "hello world"))
  /\ (match_ st1 <> None -> match_ st2 = None).
Proof.
  refine (@literal_pattern_never_matches_twice_in_a_row defaults 0 true
            "hello world" 0%N 0%N
            (result_event false 0.5 "Hello World")
            (result_event false 0.5 "hello world!") (mount None)
            false false 0.5%float 0.5%float "Hello World" "hello world!"
            eq_refl eq_refl _ eq_refl eq_refl).
  discriminate.
Defined.

Lemma scan_stores (R : JS.RegExp) (text : string) (st st' : State) :
  scan R text st = Some st' ->
  match_ st' = None
  \/ exists s, match_ st' = Some (JS.toLowerCase s).
Proof.
  open_scan; intros H; inversion H; subst; simpl; eauto.
Qed.

(** A task leaves the match alone or replaces it by the outcome of a
    scan with the pattern of the installed handler. *)
Lemma step_match (o : Options) (a : Action) (st : State) :
  SpeechRecognition.listeners (recognition st) = wire o ->
  match_ (step a st) = match_ st
  \/ exists text before after,
       scan (regex o) text before = Some after
       /\ match_ (step a st) = match_ after.
Proof.
  intros W.
  destruct a as [slot random event|so|so| | | | ]; unfold step.
  - unfold notify. simpl. rewrite W.
    destruct slot; simpl;
      try match goal with
        | |- context [invoke ?s ?f _ _] => destruct f; simpl; auto
        end;
      try solve [destruct (continuous o); simpl; auto].
    destruct (reading event) as [[[final c] text]|] eqn:Rd.
    + rewrite (@handleResult_read o random event _ _ _ _ Rd). cbv zeta.
      match goal with
      | |- context [scan ?R ?t ?s] => destruct (scan R t s) as [after|] eqn:E
      end.
      * right. do 3 eexists. split; [exact E|].
        destruct (onresult o); reflexivity.
      * left. destruct final; reflexivity.
    + rewrite (@handleResult_malformed o random event _ Rd). auto.
  - unfold start. destruct so; simpl; destruct (isListening st); auto.
  - auto.
  - auto.
  - auto.
  - simpl. destruct (timers st) as [|[|so] rest]; simpl; auto.
    unfold start. destruct so; simpl; destruct (isListening st); auto.
  - unfold useEffect, initializeSpeechRecognition. simpl.
    destruct (isInitialized st); simpl; auto.
    destruct (startOnLoad (_options st)); auto.
Qed.

Lemma run_match (P : option string -> Prop) (o : Options) :
  (forall text before after,
     scan (regex o) text before = Some after -> P (match_ after)) ->
  forall actions st,
    SpeechRecognition.listeners (recognition st) = wire o ->
    isInitialized st = true ->
    P (match_ st) ->
    P (match_ (run actions st)).
Proof.
  intros Sc. induction actions as [|a actions IH]; intros st W I H; simpl;
    [exact H|].
  destruct (step_recognition a st I) as [R I'].
  apply IH; [rewrite R; exact W|exact I'|].
  destruct (@step_match o a st W) as [->|(text & b & af & E & ->)];
    [exact H|exact (Sc _ _ _ E)].
Qed.

(** X17.  A caller who gives a case-sensitive literal pattern with an
    upper-case letter in it never gets a match: the matched text is
    lower-cased before it is tested against the pattern again, and a
    lower-case string cannot contain the pattern.  In every state the
    hook reaches the match is null. *)
Theorem upper_case_pattern_never_matches
    (pattern : string) (object : nat) (h : option Handler)
    (actions : list Action) :
  JS.toLowerCase pattern <> pattern ->
  match_ (run actions
            (mount (Some (with_regex (case_sensitive object pattern) h))))
  = None.
Proof.
  intros U.
  assert (N : pattern <> "") by (intros ->; apply U; reflexivity).
  set (options := Some (with_regex (case_sensitive object pattern) h)).
  destruct (mount_recognition options) as [R I].
  apply (@run_match (fun m => m = None) (initial_options options)).
  - intros text b af E. change (regex (initial_options options))
      with (literal_regexp object false pattern) in E.
    destruct (@scan_literal object false pattern text b N)
      as (af' & E' & D & _).
    rewrite E in E'. injection E' as <-.
    destruct D as [[D _]|(_ & _ & A)]; [exact D|].
    exfalso. apply U.
    exact (@LiteralFacts.literal_at_lower pattern _ A
             (LiteralFacts.toLowerCase_idem pattern)).
  - rewrite R. reflexivity.
  - exact I.
  - destruct (mount_view options) as (_ & _ & _ & M & _). exact M.
Qed.

Lemma upper_case_pattern_never_matches_witness :
  match_ (run [Notify Onresult 0%N (result_event false 0.5 "Hello there")]
            (mount (Some (with_regex (case_sensitive 1 "Hello") None))))
  = None.
Proof.
  refine (@upper_case_pattern_never_matches "Hello" 1 None
            [Notify Onresult 0%N (result_event false 0.5 "Hello there")] _).
  discriminate.
Defined.

(** X18.  The match the hook exposes never holds an upper-case letter:
    in every state reached after mounting, with any options and any
    pattern, it is null or a string that lower-casing leaves unchanged. *)
Theorem match_is_always_lower_case
    (options : option SpeechRecognitionOptions) (actions : list Action) :
  match match_ (run actions (mount options)) with
  | Some m => JS.toLowerCase m = m
  | None => True
  end.
Proof.
  destruct (mount_recognition options) as [R I].
  apply (@run_match
           (fun m => match m with
                     | Some m => JS.toLowerCase m = m
                     | None => True
                     end) (initial_options options)).
  - intros text b af E.
    destruct (scan_stores _ _ _ E) as [->|(s & ->)]; [exact Logic.I|].
    apply LiteralFacts.toLowerCase_idem.
  - rewrite R. reflexivity.
  - exact I.
  - destruct (mount_view options) as (_ & _ & _ & -> & _). exact Logic.I.
Qed.

Lemma scan_beyond (R : JS.RegExp) (text : string) (st st' : State) :
  JS.global R = true ->
  String.length text < lastIndex st (JS.rx_object R) ->
  scan R text st = Some st' ->
  match_ st' = None /\ lastIndex st' (JS.rx_object R) = 0.
Proof.
  intros G B. unfold scan, matchedColor, JS.matchAll. rewrite G.
  replace (String.length text + 2) with (S (String.length text + 1))
    by lia.
  simpl JS.RegExpStringIterator.
  unfold JS.RegExpBuiltinExec at 1. rewrite G. simpl orb. cbv iota.
  rewrite JSFacts.exec_loop_exhausted by exact B.
  simpl JS.pop. simpl or_else. simpl JS.toLowerCase.
  unfold JS.test, JS.RegExpBuiltinExec. rewrite G. simpl orb. cbv iota.
  rewrite JSFacts.exec_loop_exhausted by (simpl; lia).
  intros H. injection H as <-. simpl. rewrite Nat.eqb_refl. auto.
Qed.

(** X19.  Whatever the global pattern, a result whose text is shorter
    than the pattern's lastIndex stores null, without the text being
    looked at, and puts lastIndex back to 0: matchAll and test both start
    from lastIndex, past the end of the text. *)
Theorem short_text_after_a_match_is_missed
    (o : Options) (random : Draws) (event : SpeechRecognitionEvent)
    (st : State) (final : bool) (c : float) (text : string) :
  SpeechRecognition.listeners (recognition st) Onresult = HandleResult o ->
  JS.global (regex o) = true ->
  reading event = Some (final, c, text) ->
  String.length text < lastIndex st (JS.rx_object (regex o)) ->
  let st' := step (Notify Onresult random event) st in
  match_ st' = None /\ lastIndex st' (JS.rx_object (regex o)) = 0.
Proof.
  intros W G Rd B st'.
  destruct (@step_result_scan o random event st _ _ _ W Rd G)
    as (b & a & E & Lb & M & L & _).
  fold st' in M, L. rewrite M, L.
  apply (@scan_beyond (regex o) text b a G); [rewrite Lb; exact B|exact E].
Qed.

Lemma short_text_after_a_match_is_missed_witness :
  let st :=
    step (Notify Onresult 0%N
            (result_event false 0.5 "I said: hello world"))
      (mount None) in
  let st' :=
    step (Notify Onresult 0%N (result_event false 0.5 "hello")) st in
  match_ st' = None /\ lastIndex st' (JS.rx_object (regex defaults)) = 0.
Proof.
  refine (@short_text_after_a_match_is_missed defaults 0%N
            (result_event false 0.5 "hello")
            (step (Notify Onresult 0%N
                     (result_event false 0.5 "I said: hello world"))
               (mount None))
            false 0.5%float "hello" eq_refl eq_refl eq_refl _).
  vm_compute. lia.
Defined.

(* ================================================================== *)
(** ** The ids of the entries *)

Lemma string_of_uint_hexadecimal (d : Hexadecimal.uint) :
  string_forall is_hex_digit (NilEmpty.string_of_uint d) = true.
Proof.
  induction d; simpl; try reflexivity; exact IHd.
Qed.

(** X20.  The id of an entry is never empty, is made of the characters
    0-9 and a-f only (no dot, no sign, no upper case), and is the same
    for two draws of Math.random only when their integer parts are the
    same. *)
Theorem new_id_is_hexadecimal (random : N) :
  new_id random <> ""
  /\ string_forall is_hex_digit (new_id random) = true
  /\ (forall other, new_id random = new_id other -> random = other).
Proof.
  unfold new_id, JS.toString16, NilZero.string_of_uint.
  split; [|split].
  - destruct (N.to_hex_uint random); discriminate.
  - destruct (N.to_hex_uint random) eqn:E; try reflexivity;
      rewrite <- E; try apply string_of_uint_hexadecimal.
  - intros other H. apply JSFacts.toString16_inj. exact H.
Qed.

(* ================================================================== *)
(** ** Notifications, callbacks and the engine *)

Lemma handleStart_invocations
    (options : option SpeechRecognitionOptions) (actions : list Action)
    (random : Draws) (event : SpeechRecognitionEvent) :
  invocations (step (Notify Onstart random event)
                 (run actions (mount options)))
  = invocations (run actions (mount options))
    ++ called Onend (onend (initial_options options)) event.
Proof.
  unfold step, notify. simpl.
  rewrite (reachable_listeners options actions). simpl.
  unfold handleStart.
  destruct (onend (initial_options options)); simpl;
    rewrite ?app_nil_r; reflexivity.
Qed.

(** X21.  The end notification calls the caller's onend callback once,
    with its event.  As the start notification calls the same callback, a
    session that starts and then ends calls onend twice, first with the
    start event, then with the end event. *)
Theorem onend_is_called_at_start_and_at_end
    (options : option SpeechRecognitionOptions) (actions : list Action)
    (r1 r2 : Draws) (started ended : SpeechRecognitionEvent) :
  let st := run actions (mount options) in
  let f := onend (initial_options options) in
  invocations (step (Notify Onend r2 ended) st)
  = invocations st ++ called Onend f ended
  /\ invocations (run [Notify Onstart r1 started; Notify Onend r2 ended] st)
     = invocations st ++ called Onend f started ++ called Onend f ended.
Proof.
  intros st f.
  assert (E : forall acts r e,
             invocations (step (Notify Onend r e)
                            (run acts (mount options)))
             = invocations (run acts (mount options))
               ++ called Onend f e).
  { intros acts r e.
    unfold step, notify. simpl.
    rewrite (reachable_listeners options acts). simpl.
    unfold handleEnd. fold f.
    destruct (continuous (initial_options options)), f; simpl;
      rewrite ?app_nil_r; reflexivity. }
  split; [apply E|].
  change (run [Notify Onstart r1 started; Notify Onend r2 ended] st)
    with (step (Notify Onend r2 ended)
            (step (Notify Onstart r1 started) st)).
  assert (S1 : step (Notify Onstart r1 started) st
               = run (actions ++ [Notify Onstart r1 started])
                   (mount options)).
  { unfold st, run. rewrite fold_left_app. reflexivity. }
  rewrite S1, E, <- S1, app_assoc. f_equal.
  exact (@handleStart_invocations options actions r1 started).
Qed.

(** X22.  No listener calls the engine's start or abort while the engine
    is delivering a notification: in every reachable state, whatever the
    slot, the only call a notification can make on the engine is the stop
    of handleEnd, at most once; a start is always left to a timer. *)
Theorem notifications_never_start_the_engine
    (options : option SpeechRecognitionOptions) (actions : list Action)
    (slot : Slot) (random : Draws) (event : SpeechRecognitionEvent) :
  let st := run actions (mount options) in
  let st' := step (Notify slot random event) st in
  engine_calls st'
  = engine_calls st
    ++ (if Slot_eqb slot Onend then [(turn st', EngineStop)] else []).
Proof.
  intros st st'.
  pose proof (reachable_listeners options actions) as W. fold st in W.
  unfold st', step, notify. simpl. rewrite W.
  destruct slot; simpl; rewrite ?app_nil_r;
    try match goal with
      | |- context [invoke ?s ?f _ _] => destruct f; simpl; auto
      end;
    try solve [destruct (continuous (initial_options options));
               reflexivity].
  destruct (handleResult_engine (initial_options options) random event
              (next_turn st)) as (_ & _ & _ & -> & _).
  reflexivity.
Qed.
